(** * svckit/cgen: the generated Diff / Merge / Copy operations

    [cgen/diff.go] holds four text templates ([diffTemplate],
    [mergeTemplate], [diffMethodsTemplate], [copyMethods]) that are
    instantiated once per struct of a schema.  Each template ranges over the
    scalar fields ([.Fields]), the nested struct fields ([.StructFields]) and
    the map fields ([.Maps]) of the struct.  This file embeds the code those
    templates produce as functions indexed by the schema, over a store that
    holds the Go maps, and proves properties of it. *)

From stdpp Require Import base option list gmap strings.
From Stdlib Require Import ZArith.

Open Scope Z_scope.

Set Warnings "-register-all".

(** ** Schema *)

(** Go types of scalar fields ([.Type] of an entry of [.Fields]).  Only
    comparable types without irreflexive values are covered. *)
Inductive ScalarType := TInt | TString | TBool.

Inductive Scalar :=
  | VInt (z : Z)
  | VString (s : string)
  | VBool (b : bool).

Global Instance Scalar_eq_dec : EqDecision Scalar.
Proof. solve_decision. Defined.

(** The zero value Go gives to a scalar of each type. *)
Definition zeroScalar (s : ScalarType) : Scalar :=
  match s with
  | TInt => VInt 0
  | TString => VString ""
  | TBool => VBool false
  end.

(** One entry of [.Structs]: its scalar fields, the types of its nested
    struct fields and the value types of its map fields.  Fields are
    identified by position instead of by name.  The schema is a finite tree:
    a struct whose maps hold values of the struct's own type is not
    covered. *)
Inductive Struct :=
  | MkStruct (Fields : list ScalarType) (StructFields : list Struct) (Maps : list Struct).

Definition Fields (t : Struct) := let 'MkStruct f _ _ := t in f.
Definition StructFields (t : Struct) := let 'MkStruct _ s _ := t in s.
Definition Maps (t : Struct) := let 'MkStruct _ _ m := t in m.

(** Map keys ([.Key]): one comparable type for all maps. *)
Abbreviation Key := string.

(** ** Values and the store *)

(** A Go map value is a reference: [None] is the nil map, [Some l] points at
    the map stored at index [l]. *)
Abbreviation loc := nat.
Abbreviation MapRef := (option loc).

(** A value of a generated struct type.  Nested structs are held inline (by
    value), maps by reference. *)
Inductive Value :=
  | MkValue (vfields : list Scalar) (vstructs : list Value) (vmaps : list MapRef).

Definition vfields (v : Value) := let 'MkValue f _ _ := v in f.
Definition vstructs (v : Value) := let 'MkValue _ s _ := v in s.
Definition vmaps (v : Value) := let 'MkValue _ _ m := v in m.

(** The store: every allocated map, in allocation order. *)
Abbreviation Heap := (list (gmap Key Value)).

(** [make(map[K]V)] *)
Definition alloc (h : Heap) (m : gmap Key Value) : Heap * loc :=
  (h ++ [m], length h).

(** The entries seen through a reference; reading a nil map finds nothing. *)
Definition content (h : Heap) (r : MapRef) : gmap Key Value :=
  match r with
  | Some l => default ∅ (h !! l)
  | None => ∅
  end.

(** [delete(m, k)]: no effect on a nil map. *)
Definition mapDelete (h : Heap) (r : MapRef) (k : Key) : Heap :=
  match r with
  | Some l => alter (delete k) l h
  | None => h
  end.

(** [m[k] = v] on the map stored at [l]. *)
Definition storeAt (l : loc) (k : Key) (v : Value) (h : Heap) : Heap :=
  alter (insert k v) l h.

(** [m[k] = v] through a reference: Go panics on a nil map. *)
Definition mapStore (h : Heap) (r : MapRef) (k : Key) (v : Value) : option Heap :=
  match r with
  | Some l => Some (storeAt l k v h)
  | None => None
  end.

(** ** Deltas ([diffTemplate]) *)

(** [type TDiff struct]: a pointer per scalar field, a pointer to a sub-delta
    per nested struct field, a [VDiffMap] per map field.  A [VDiffMap] is a
    Go map from keys to pointers; it is kept as the list of its entries in
    the order in which [range] visits them, [None] being the nil map.  An
    entry [(k, None)] holds a nil pointer under [k]. *)
Inductive Diff :=
  | MkDiff (dfields : list (option Scalar))
           (dstructs : list (option Diff))
           (dmaps : list (option (list (Key * option Diff)))).

Abbreviation DiffMap := (option (list (Key * option Diff))).

Definition dfields (d : Diff) := let 'MkDiff f _ _ := d in f.
Definition dstructs (d : Diff) := let 'MkDiff _ s _ := d in s.
Definition dmaps (d : Diff) := let 'MkDiff _ _ m := d in m.

(** [&TDiff{}] *)
Definition emptyDiff (t : Struct) : Diff :=
  MkDiff (const None <$> Fields t) (const None <$> StructFields t)
         (const None <$> Maps t).

Definition entries (m : DiffMap) : list (Key * option Diff) := default [] m.

(** [mv[key] = value] on the entry list: replace the entry of [key], or add
    one. *)
Fixpoint assign (k : Key) (v : option Diff) (l : list (Key * option Diff)) :
    list (Key * option Diff) :=
  match l with
  | [] => [(k, v)]
  | (k', v') :: l' =>
      if decide (k' = k) then (k, v) :: l' else (k', v') :: assign k v l'
  end.

(** [len(m)] is the number of entries; a key's entry: *)
Fixpoint entry (k : Key) (l : list (Key * option Diff)) : option (option Diff) :=
  match l with
  | [] => None
  | (k', v) :: l' => if decide (k' = k) then Some v else entry k l'
  end.

Module DiffMap.
(** [func (m *VDiffMap) Set(key, value)] *)
Definition Set_ (m : DiffMap) (key : Key) (value : option Diff) : DiffMap :=
  let m := match m with None => Some [] | Some _ => m end in
  Some (assign key value (entries m)).

(** [func (m *VDiffMap) Nil(key)] *)
Definition Nil (m : DiffMap) (key : Key) : DiffMap := Set_ m key None.

(** [func (m *VDiffMap) Empty(key)] *)
Definition Empty (vt : Struct) (m : DiffMap) (key : Key) : DiffMap :=
  Set_ m key (Some (emptyDiff vt)).
End DiffMap.

(** ** Diff ([diffMethodsTemplate]) *)

(** Modelled from the spec: [func (i TDiff) empty() bool] joins
    [.NilConditions], which the schema supplies and which is not part of
    [cgen/diff.go].  A delta is empty iff every scalar slot is absent, every
    nested-record slot's sub-delta is empty or absent, and every map is
    empty. *)
Fixpoint empty (i : Diff) : bool :=
  let 'MkDiff fs ss ms := i in
  forallb (λ f, bool_decide (f = None)) fs
  && forallb (λ s, match s with None => true | Some d => empty d end) ss
  && forallb (λ m : DiffMap, match entries m with [] => true | _ => false end) ms.

(** Runs [f] over three lists in step, as the template ranges over the
    fields of [.Structs] while the code reads [o.F] and [n.F]. *)
Definition zip3 {A B C D} (f : A → B → C → D) : list A → list B → list C → list D :=
  fix go l1 l2 l3 :=
    match l1, l2, l3 with
    | a :: l1, b :: l2, c :: l3 => f a b c :: go l1 l2 l3
    | _, _, _ => []
    end.

(** [if n.F != o.F { i.F = &n.F }] *)
Definition diffField (o n : Scalar) : option Scalar :=
  if decide (n ≠ o) then Some n else None.

(** [if len(i.F) == 0 { i.F = nil }] *)
Definition nilIfEmpty (m : DiffMap) : DiffMap :=
  match m with
  | Some [] => None
  | _ => m
  end.

(** The two loops over a map field, given the diff of the value type.  Go
    visits the keys of [n.F] and [o.F] in an unspecified order;
    [map_to_list] is one such order, and the entry a key gets does not depend
    on it ([entry_add], [entry_remove] below hold for any order). *)
Definition diffMap (diffV : Value → Value → option Diff) (zeroV : Value)
    (om nm : gmap Key Value) : DiffMap :=
  let i := Some [] in
  let i :=
    foldl (λ (i : DiffMap) '(k, nc),
             let oc := default zeroV (om !! k) in
             match diffV oc nc with
             | Some ip => Some (assign k (Some ip) (entries i))
             | None => i
             end) i (map_to_list nm) in
  let i :=
    foldl (λ (i : DiffMap) '(k, _),
             match nm !! k with
             | None => Some (assign k None (entries i))
             | Some _ => i
             end) i (map_to_list om) in
  nilIfEmpty i.

(** [T{}] *)
Fixpoint zero (t : Struct) : Value :=
  let 'MkStruct fs ss ms := t in
  MkValue (zeroScalar <$> fs) (map zero ss) (const None <$> ms).

(** [func (o T) diff(n T) *TDiff] *)
Fixpoint diff (t : Struct) (h : Heap) (o n : Value) : option Diff :=
  let 'MkStruct fs ss ms := t in
  let i :=
    MkDiff
      (zip3 (λ _ fo fn, diffField fo fn) fs (vfields o) (vfields n))
      (zip3 (λ st os ns, diff st h os ns) ss (vstructs o) (vstructs n))
      (zip3 (λ vt om nm, diffMap (diff vt h) (zero vt) (content h om) (content h nm))
            ms (vmaps o) (vmaps n)) in
  if empty i then None else Some i.

(** [func (o T) Diff(n T) *TDiff], generated for the root struct. *)
Definition Diff_ (t : Struct) (h : Heap) (o n : Value) : option Diff := diff t h o n.

(** ** Merge ([mergeTemplate]) *)

(** [if d.F != nil && *d.F != o.F { o.F = *d.F; changed = true }] *)
Definition mergeField (o : Scalar) (d : option Scalar) (changed : bool) : Scalar * bool :=
  match d with
  | Some v => if decide (v ≠ o) then (v, true) else (o, changed)
  | None => (o, changed)
  end.

(** The scalar fields, in declaration order. *)
Fixpoint mergeFields (fs : list ScalarType) (os : list Scalar) (ds : list (option Scalar))
    (changed : bool) : list Scalar * bool :=
  match fs, os, ds with
  | _ :: fs, o :: os, d :: ds =>
      let '(o', changed) := mergeField o d changed in
      let '(os', changed) := mergeFields fs os ds changed in
      (o' :: os', changed)
  | _, _, _ => ([], changed)
  end.

(** A loop over the fields of one kind: [f] gets the field's schema entry,
    the field of [o], the slot of [d] and the state, and gives the new state
    and the new field of [o], or panics. *)
Definition forEach3 {S A B C D} (f : A → B → C → S → option (S * D)) :
    list A → list B → list C → S → option (S * list D) :=
  fix go l1 l2 l3 s :=
    match l1, l2, l3 with
    | a :: l1, b :: l2, c :: l3 =>
        '(s, d) ← f a b c s;
        '(s, ds) ← go l1 l2 l3 s;
        Some (s, d :: ds)
    | _, _, _ => Some (s, [])
    end.

(** A [range] loop whose body may panic. *)
Definition forRange {S E} (f : S → E → option S) : list E → S → option S :=
  fix go l s :=
    match l with
    | [] => Some s
    | e :: l => s ← f s e; go l s
    end.

(** What the loop over one map field [F] reads and writes: the store, the
    local [o.F], whether [copyFOnce] has fired, and [changed]. *)
Record MapState := MkMapState {
  heap : Heap;
  field : MapRef;
  once : bool;
  changed : bool
}.

(** [for k, v := range o.F { m[k] = v }] into a fresh [m] *)
Definition copyEntries (src : gmap Key Value) : gmap Key Value :=
  foldl (λ (m : gmap Key Value) '(k, v), <[k := v]> m) ∅ (map_to_list src).

(** [copyOnWriteF()] *)
Definition copyOnWrite (s : MapState) : MapState :=
  if once s then s
  else
    let '(h, l) := alloc (heap s) (copyEntries (content (heap s) (field s))) in
    {| heap := h; field := Some l; once := true; changed := true |}.

(** The result of the generated [merge]: the store, the value, the flag. *)
Abbreviation Merged := (option (Heap * Value * bool)).

(** The body of [for k, dc := range d.F], given [merge] of the value type. *)
Definition mergeEntry (mergeV : Heap → Value → option Diff → Merged) (zeroV : Value)
    (s : MapState) (e : Key * option Diff) : option MapState :=
  let '(k, dc) := e in
  let c := content (heap s) (field s) !! k in
  match dc with
  | None =>
      match c with
      | Some _ =>
          let s := copyOnWrite s in
          Some {| heap := mapDelete (heap s) (field s) k; field := field s;
                  once := once s; changed := changed s |}
      | None => Some s
      end
  | Some _ =>
      '(h, c2, merged) ← mergeV (heap s) (default zeroV c) dc;
      let s := {| heap := h; field := field s; once := once s; changed := changed s |} in
      if merged : bool then
        let s := copyOnWrite s in
        h ← mapStore (heap s) (field s) k c2;
        Some {| heap := h; field := field s; once := once s; changed := changed s |}
      else Some s
  end.

(** The block generated for one map field. *)
Definition mergeMap (mergeV : Heap → Value → option Diff → Merged) (zeroV : Value)
    (om : MapRef) (dm : DiffMap) (s : Heap * bool) : option (Heap * bool * MapRef) :=
  s ← forRange (mergeEntry mergeV zeroV) (entries dm)
        {| heap := s.1; field := om; once := false; changed := s.2 |};
  Some (heap s, changed s, field s).

(** The block generated for one nested struct field. *)
Definition mergeStruct (mergeS : Heap → Value → option Diff → Merged)
    (os : Value) (ds : option Diff) (s : Heap * bool) : option (Heap * bool * Value) :=
  '(h, o2, merged) ← mergeS s.1 os ds;
  if merged : bool then Some (h, true, o2) else Some (h, s.2, os).

(** [func (o T) merge(d *TDiff) (T, bool)] *)
Fixpoint merge (t : Struct) (h : Heap) (o : Value) (d : option Diff) : Merged :=
  let 'MkStruct fs ss ms := t in
  match d with
  | None => Some (h, o, false)
  | Some d =>
      let '(fields, changed) := mergeFields fs (vfields o) (dfields d) false in
      '(h, changed, structs) ←
        forEach3 (λ st os ds s, mergeStruct (merge st) os ds s)
                 ss (vstructs o) (dstructs d) (h, changed);
      '(h, changed, maps) ←
        forEach3 (λ vt om dm s, mergeMap (merge vt) (zero vt) om dm s)
                 ms (vmaps o) (dmaps d) (h, changed);
      Some (h, MkValue fields structs maps, changed)
  end.

(** [func (o T) Merge(d TDiff) T], generated for the root struct. *)
Definition Merge (t : Struct) (h : Heap) (o : Value) (d : Diff) : option (Heap * Value) :=
  '(h, n, _) ← merge t h o (Some d); Some (h, n).

(** ** Copy ([copyMethods]) *)

(** The block generated for one map field, given [Copy] of the value type. *)
Definition copyMap (copyV : Heap → Value → Heap * Value) (om : MapRef) (h : Heap) :
    Heap * MapRef :=
  let src := content h om in
  let '(h, l) := alloc h ∅ in
  let h :=
    foldl (λ (h : Heap) '(k, v),
             let '(h, v') := copyV h v in storeAt l k v' h) h (map_to_list src) in
  (h, Some l).

Definition copyMaps (copyV : Struct → Heap → Value → Heap * Value) :
    list Struct → list MapRef → Heap → Heap * list MapRef :=
  fix go ms oms h :=
    match ms, oms with
    | vt :: ms, om :: oms =>
        let '(h, r) := copyMap (copyV vt) om h in
        let '(h, rs) := go ms oms h in
        (h, r :: rs)
    | _, _ => (h, [])
    end.

(** [func (o T) Copy() T] *)
Fixpoint Copy (t : Struct) (h : Heap) (o : Value) : Heap * Value :=
  let 'MkStruct fs ss ms := t in
  let '(h, maps) := copyMaps Copy ms (vmaps o) h in
  (h, MkValue (vfields o) (vstructs o) maps).

(** ** Notions used to state the properties *)

(** Pointwise conditions along the fields of a struct. *)
Definition all2 {A B} (f : A → B → Prop) : list A → list B → Prop :=
  fix go l1 l2 :=
    match l1, l2 with
    | [], [] => True
    | a :: l1, b :: l2 => f a b ∧ go l1 l2
    | _, _ => False
    end.

Definition all3 {A B C} (f : A → B → C → Prop) : list A → list B → list C → Prop :=
  fix go l1 l2 l3 :=
    match l1, l2, l3 with
    | a :: l1, b :: l2, c :: l3 => f a b c ∧ go l1 l2 l3
    | _, _, _ => True
    end.

(** [wfValue P t h v]: [v] has the fields of [t], every map reachable from
    [v] in [h] is at an index that satisfies [P], and holds values of its
    value type for which the same is true. *)
Fixpoint wfValue (P : loc → Prop) (t : Struct) (h : Heap) (v : Value) : Prop :=
  let 'MkStruct fs ss ms := t in
  length (vfields v) = length fs
  ∧ all2 (λ st sv, wfValue P st h sv) ss (vstructs v)
  ∧ all2 (λ vt (r : MapRef),
            match r with
            | None => True
            | Some l => P l ∧ map_Forall (λ _ x, wfValue P vt h x) (content h r)
            end) ms (vmaps v).

(** A value of [t] all of whose maps are allocated in [h]. *)
Definition wf (t : Struct) (h : Heap) (v : Value) : Prop :=
  wfValue (λ l, (l < length h)%nat) t h v.

(** [wfDiff t d]: [d] has the slots of [t]'s delta type and, Go maps having
    one entry per key, no entry list mentions a key twice. *)
Fixpoint wfDiff (t : Struct) (d : Diff) : Prop :=
  let 'MkStruct fs ss ms := t in
  length (dfields d) = length fs
  ∧ all2 (λ st (sd : option Diff),
            match sd with None => True | Some d' => wfDiff st d' end) ss (dstructs d)
  ∧ all2 (λ vt (dm : DiffMap),
            NoDup (entries dm).*1
            ∧ Forall (λ e : Key * option Diff,
                        match e.2 with None => True | Some d' => wfDiff vt d' end)
                     (entries dm)) ms (dmaps d).

(** [equal t h1 v1 h2 v2]: [v1] in store [h1] and [v2] in store [h2] are the
    same value of type [t]: the same scalars, equal nested structs, and maps
    with the same keys holding equal values.  Maps are compared by their
    entries (a nil map and a map without entries are not told apart). *)
Fixpoint equal (t : Struct) (h1 : Heap) (v1 : Value) (h2 : Heap) (v2 : Value) : Prop :=
  let 'MkStruct fs ss ms := t in
  all3 (λ _ a b, a = b) fs (vfields v1) (vfields v2)
  ∧ all3 (λ st a b, equal st h1 a h2 b) ss (vstructs v1) (vstructs v2)
  ∧ all3 (λ vt r1 r2,
            ∀ k : Key,
              option_Forall2 (λ a b, equal vt h1 a h2 b)
                             (content h1 r1 !! k) (content h2 r2 !! k))
         ms (vmaps v1) (vmaps v2).

(** The entry of key [k] in the [j]-th map of a delta, if any.  [None]: no
    entry; [Some None]: the nil marker; [Some (Some d)]: a sub-delta. *)
Definition diffEntry (d : option Diff) (j : nat) (k : Key) : option (option Diff) :=
  d ← d; m ← dmaps d !! j; entry k (entries m).

(** Every map entry of a delta, at any depth, is the nil marker or a
    sub-delta that is not empty. *)
Fixpoint minimal (d : Diff) : bool :=
  let 'MkDiff fs ss ms := d in
  forallb (λ s, match s with None => true | Some d' => minimal d' end) ss
  && forallb (λ m : DiffMap,
                match m with
                | None => true
                | Some l =>
                    forallb (λ e : Key * option Diff,
                               match e with
                               | (_, None) => true
                               | (_, Some d') => negb (empty d') && minimal d'
                               end) l
                end) ms.

(** Every map of [h] is in [h'], at the same index and with the same
    entries. *)
Definition preserved (h h' : Heap) : Prop :=
  ∀ l m, h !! l = Some m → h' !! l = Some m.

(** What holds of the loop over a map field that started in store [h0]: the
    maps of [h0] are as they were, and once [copyFOnce] has fired [o.F] is a
    map allocated since. *)
Definition loopInv (h0 : Heap) (s : MapState) : Prop :=
  preserved h0 (heap s)
  ∧ (once s = true →
     ∃ l, field s = Some l ∧ (length h0 ≤ l)%nat ∧ (l < length (heap s))%nat).

(** The reference is nil or points into the store. *)
Definition allocated (h : Heap) (r : MapRef) : Prop :=
  ∀ l, r = Some l → (l < length h)%nat.

(** [wfValue] and [equal] on one map field and [wfDiff] on one delta map. *)
Definition wfRef (P : loc → Prop) (vt : Struct) (h : Heap) (r : MapRef) : Prop :=
  match r with
  | None => True
  | Some l => P l ∧ map_Forall (λ _ x, wfValue P vt h x) (content h r)
  end.

Definition equalMap (vt : Struct) (h1 : Heap) (r1 : MapRef) (h2 : Heap) (r2 : MapRef) :
    Prop :=
  ∀ k : Key,
    option_Forall2 (λ a b, equal vt h1 a h2 b) (content h1 r1 !! k) (content h2 r2 !! k).

Definition wfDiffMap (vt : Struct) (dm : DiffMap) : Prop :=
  NoDup (entries dm).*1
  ∧ Forall (λ e : Key * option Diff,
              match e.2 with None => True | Some d' => wfDiff vt d' end) (entries dm).

Definition wfDiffOpt (t : Struct) (d : option Diff) : Prop :=
  match d with None => True | Some d => wfDiff t d end.

(** Two stores hold the same maps at the indices in [P]. *)
Definition agree (P : loc → Prop) (h h' : Heap) : Prop :=
  ∀ l, P l → h' !! l = h !! l.

(** The indices allocated between [h] and [h']. *)
Definition fresh (h h' : Heap) (l : loc) : Prop :=
  (length h ≤ l)%nat ∧ (l < length h')%nat.

(** What [merge] at type [t] does to a well-formed value whose maps are at
    indices in [P]: the result is well formed and its maps are at indices in
    [P] or fresh; with [changed = false] nothing was allocated and the value
    is the base itself; with [changed = true] the value differs from the
    base. *)
Definition mergeSpec (t : Struct) : Prop :=
  ∀ (P : loc → Prop) h o d h' o' c,
    (∀ l, P l → (l < length h)%nat) →
    wfValue P t h o → wfDiffOpt t d →
    merge t h o d = Some (h', o', c) →
    wfValue (λ l, P l ∨ fresh h h' l) t h' o'
    ∧ (c = false → h' = h ∧ o' = o)
    ∧ (c = true → ¬ equal t h o h' o').

(** The loop over a map field of value type [vt], started in store [h0] on
    the map [r0] with [changed = ch0]; the base reaches maps at indices in
    [P].  [reach] are the indices a value held by the current [o.F] may
    reach: those of the base and those allocated since, [o.F] itself
    excepted. *)
Definition reach (P : loc → Prop) (h0 : Heap) (s : MapState) (i : loc) : Prop :=
  P i ∨ ((length h0 ≤ i)%nat ∧ (i < length (heap s))%nat ∧ Some i ≠ field s).

(** With the keys [seen] visited: the maps of [h0] are as they were; before
    [copyFOnce] fires [o.F] is [r0], after it a map allocated since; [o.F]
    holds well-formed values and, under the keys not visited, what [r0]
    held. *)
Definition loopFrame (P : loc → Prop) (vt : Struct) (h0 : Heap) (r0 : MapRef)
    (ch0 : bool) (seen : list Key) (s : MapState) : Prop :=
  preserved h0 (heap s)
  ∧ allocated (heap s) (field s)
  ∧ (once s = false → field s = r0 ∧ changed s = ch0)
  ∧ (once s = true → changed s = true ∧ ∃ l, field s = Some l ∧ (length h0 ≤ l)%nat)
  ∧ map_Forall (λ _ x, wfValue (reach P h0 s) vt (heap s) x) (content (heap s) (field s))
  ∧ (∀ k, k ∉ seen → content (heap s) (field s) !! k = content h0 r0 !! k).

(** Moreover nothing was allocated before [copyFOnce] fires, and after it
    [o.F] differs from [r0]. *)
Definition loopExact (P : loc → Prop) (vt : Struct) (h0 : Heap) (r0 : MapRef)
    (ch0 : bool) (seen : list Key) (s : MapState) : Prop :=
  loopFrame P vt h0 r0 ch0 seen s
  ∧ (once s = false → heap s = h0)
  ∧ (once s = true → ¬ equalMap vt h0 r0 (heap s) (field s)).

(** A struct without map fields, nested structs included. *)
Fixpoint mapless (t : Struct) : bool :=
  let 'MkStruct _ ss ms := t in
  match ms with [] => true | _ => false end && forallb mapless ss.

(** The structs whose maps [Copy] all reaches: the nested struct fields hold
    no map, here and in the values of the maps. *)
Fixpoint deepCopied (t : Struct) : bool :=
  let 'MkStruct _ ss ms := t in
  forallb mapless ss && forallb deepCopied ms.

(** What [Copy] at type [t] does to a well-formed value whose maps are at
    indices in [P]. *)
Definition copySpec (t : Struct) : Prop :=
  ∀ (P : loc → Prop) h o,
    (∀ l, P l → (l < length h)%nat) → wfValue P t h o →
    preserved h (Copy t h o).1
    ∧ wfValue (λ l, P l ∨ fresh h (Copy t h o).1 l) t (Copy t h o).1 (Copy t h o).2
    ∧ equal t h o (Copy t h o).1 (Copy t h o).2
    ∧ (deepCopied t = true →
       wfValue (fresh h (Copy t h o).1) t (Copy t h o).1 (Copy t h o).2).

(** The loop of [Copy] over a map field, started in store [hs] (the copy is
    the map at index [length hs]), after the entries [done]: each has its
    copy in the new map, and nothing else is there. *)
Definition copyInv (P : loc → Prop) (vt : Struct) (hs : Heap)
    (done : list (Key * Value)) (hc : Heap) : Prop :=
  preserved hs hc
  ∧ (length hs < length hc)%nat
  ∧ (∀ k, k ∉ done.*1 → content hc (Some (length hs)) !! k = None)
  ∧ (∀ k v, (k, v) ∈ done →
       ∃ v', content hc (Some (length hs)) !! k = Some v'
             ∧ wfValue (λ i, P i ∨ (length hs < i ∧ i < length hc)%nat) vt hc v'
             ∧ equal vt hs v hc v'
             ∧ (deepCopied vt = true →
                wfValue (λ i, (length hs < i ∧ i < length hc)%nat) vt hc v')).

(** [reported t h o n]: every entry that [n] adds to a map, at any depth
    that [diff] visits, is one that [diff] reports: the diff of the zero
    value against the entry's value is not nil. *)
Fixpoint reported (t : Struct) (h : Heap) (o n : Value) : Prop :=
  let 'MkStruct fs ss ms := t in
  all3 (λ st a b, reported st h a b) ss (vstructs o) (vstructs n)
  ∧ all3 (λ vt ro rn,
            ∀ k nc, content h rn !! k = Some nc →
              reported vt h (default (zero vt) (content h ro !! k)) nc
              ∧ (content h ro !! k = None → diff vt h (zero vt) nc ≠ None))
         ms (vmaps o) (vmaps n).

(** [reported] on one map field. *)
Definition reportedMap (vt : Struct) (h : Heap) (ro rn : MapRef) : Prop :=
  ∀ k nc, content h rn !! k = Some nc →
    reported vt h (default (zero vt) (content h ro !! k)) nc
    ∧ (content h ro !! k = None → diff vt h (zero vt) nc ≠ None).

(** Merging [diff t h o n] into [o], in a store that still holds the maps of
    [h], gives a value equal to [n]. *)
Definition roundTrip (t : Struct) : Prop :=
  ∀ (P : loc → Prop) h o n hs h' o' c,
    (∀ l, P l → (l < length h)%nat) →
    wfValue P t h o → wfValue P t h n → reported t h o n → preserved h hs →
    merge t hs o (diff t h o n) = Some (h', o', c) →
    equal t h' o' h n.

(** In the loop of merge over a map field: under the keys [seen], [o.F]
    holds what [nm] holds. *)
Definition loopMatches (vt : Struct) (h : Heap) (nm : gmap Key Value)
    (seen : list Key) (s : MapState) : Prop :=
  ∀ k, k ∈ seen →
    option_Forall2 (λ a b, equal vt (heap s) a h b)
                   (content (heap s) (field s) !! k) (nm !! k).

(** ** Sample schemas and values *)

Module Sample.
(** [type R struct { F int }] *)
Definition R : Struct := MkStruct [TInt] [] [].
(** [type T struct { M map[string]R }] *)
Definition T : Struct := MkStruct [] [] [R].
(** [type Inner struct { M map[string]R }], [type Outer struct { In Inner }] *)
Definition Inner : Struct := MkStruct [] [] [R].
Definition Outer : Struct := MkStruct [] [Inner] [].

Definition r (z : Z) : Value := MkValue [VInt z] [] [].

(** Store with the maps [{}], [{a: R{}}], [{a: R{1}, b: R{2}}],
    [{a: R{1}}] and [{a: R{1}, c: R{}}]. *)
Definition store : Heap :=
  [ ∅; {[ "a" := zero R ]}; {[ "a" := r 1; "b" := r 2 ]}; {[ "a" := r 1 ]};
    {[ "a" := r 1; "c" := zero R ]} ].

Definition t_empty : Value := MkValue [] [] [Some 0%nat].
Definition t_a0 : Value := MkValue [] [] [Some 1%nat].
Definition t_ab : Value := MkValue [] [] [Some 2%nat].
Definition t_a : Value := MkValue [] [] [Some 3%nat].
Definition t_ac : Value := MkValue [] [] [Some 4%nat].

(** [Outer{In: Inner{M: {a: R{1}}}}] *)
Definition outer : Value := MkValue [] [MkValue [] [] [Some 3%nat]] [].

(** The map in the nested struct of a value of [Outer]. *)
Definition inM (v : Value) : MapRef :=
  default None (s ← vstructs v !! 0%nat; vmaps s !! 0%nat).

(** A delta of [R] whose scalar slot is present. *)
Definition dF (z : Z) : Diff := MkDiff [Some (VInt z)] [] [].
End Sample.

(** * Properties *)

(** ** Induction on the schema *)

Lemma Struct_ind' (P : Struct → Prop) :
  (∀ fs ss ms, Forall P ss → Forall P ms → P (MkStruct fs ss ms)) →
  ∀ t, P t.
Proof.
  intros step. fix IH 1. intros [fs ss ms]. apply step.
  - induction ss as [|st ss IHss]; constructor; [apply IH | exact IHss].
  - induction ms as [|vt ms IHms]; constructor; [apply IH | exact IHms].
Qed.

(** ** One-level unfoldings *)

Lemma merge_nil t h o : merge t h o None = Some (h, o, false).
Proof. by destruct t. Qed.

Lemma merge_unfold fs ss ms h o d :
  merge (MkStruct fs ss ms) h o (Some d) =
    let '(fields, changed) := mergeFields fs (vfields o) (dfields d) false in
    '(h, changed, structs) ←
      forEach3 (λ st os ds s, mergeStruct (merge st) os ds s)
               ss (vstructs o) (dstructs d) (h, changed);
    '(h, changed, maps) ←
      forEach3 (λ vt om dm s, mergeMap (merge vt) (zero vt) om dm s)
               ms (vmaps o) (dmaps d) (h, changed);
    Some (h, MkValue fields structs maps, changed).
Proof. reflexivity. Qed.

Lemma diff_unfold fs ss ms h o n :
  diff (MkStruct fs ss ms) h o n =
    let i :=
      MkDiff
        (zip3 (λ _ fo fn, diffField fo fn) fs (vfields o) (vfields n))
        (zip3 (λ st os ns, diff st h os ns) ss (vstructs o) (vstructs n))
        (zip3 (λ vt om nm, diffMap (diff vt h) (zero vt) (content h om) (content h nm))
              ms (vmaps o) (vmaps n)) in
    if empty i then None else Some i.
Proof. reflexivity. Qed.

Lemma Copy_unfold fs ss ms h o :
  Copy (MkStruct fs ss ms) h o =
    let '(h, maps) := copyMaps Copy ms (vmaps o) h in
    (h, MkValue (vfields o) (vstructs o) maps).
Proof. reflexivity. Qed.

(** ** Merge returns, and leaves the maps of its store alone *)

Lemma preserved_refl h : preserved h h.
Proof. by intros l m. Qed.

Lemma preserved_trans h1 h2 h3 : preserved h1 h2 → preserved h2 h3 → preserved h1 h3.
Proof. intros H12 H23 l m Hl. by apply H23, H12. Qed.

Lemma preserved_length h h' : preserved h h' → (length h ≤ length h')%nat.
Proof.
  intros Hp. destruct (decide (length h ≤ length h')%nat) as [|Hlt]; [done|].
  destruct (lookup_lt_is_Some_2 h (length h')) as [m Hm]; [lia|].
  apply Hp, lookup_lt_Some in Hm. lia.
Qed.

Lemma preserved_app h l : preserved h (h ++ l).
Proof. intros i m Hi. by apply lookup_app_l_Some. Qed.

Lemma preserved_alter h0 h f l :
  preserved h0 h → (length h0 ≤ l)%nat → preserved h0 (alter f l h).
Proof.
  intros Hp Hl i m Hi. rewrite list_lookup_alter_ne; [by apply Hp|].
  apply lookup_lt_Some in Hi. lia.
Qed.

Lemma preserved_content h h' (l : loc) :
  preserved h h' → (l < length h)%nat → content h' (Some l) = content h (Some l).
Proof.
  intros Hp Hl. destruct (lookup_lt_is_Some_2 h l Hl) as [m Hm].
  simpl. by rewrite (Hp _ _ Hm), Hm.
Qed.

Lemma loopInv_start h r c :
  loopInv h {| heap := h; field := r; once := false; changed := c |}.
Proof. split; [apply preserved_refl | done]. Qed.

Lemma loopInv_heap h0 s h :
  loopInv h0 s → preserved (heap s) h →
  loopInv h0 {| heap := h; field := field s; once := once s; changed := changed s |}.
Proof.
  intros [Hp Ho] Hh. split; simpl; [by eapply preserved_trans|].
  intros Hon. destruct (Ho Hon) as (l & ? & ? & ?). exists l.
  split_and!; [done..|]. apply preserved_length in Hh. lia.
Qed.

Lemma loopInv_copyOnWrite h0 s :
  loopInv h0 s →
  loopInv h0 (copyOnWrite s)
  ∧ once (copyOnWrite s) = true
  ∧ preserved (heap s) (heap (copyOnWrite s)).
Proof.
  intros Hinv. pose proof Hinv as [Hp Ho].
  unfold copyOnWrite. destruct (once s) eqn:Hon.
  - split_and!; [done | done | apply preserved_refl].
  - simpl. split_and!; [split; simpl | done | apply preserved_app].
    + eapply preserved_trans; [done | apply preserved_app].
    + intros _. exists (length (heap s)). split_and!; [done | |].
      * by apply preserved_length.
      * rewrite length_app. simpl. lia.
Qed.

Section merge_total.
Context (mergeV : Heap → Value → option Diff → Merged) (zeroV : Value).
Hypothesis mergeV_total :
  ∀ h o d, ∃ h' o' c, mergeV h o d = Some (h', o', c) ∧ preserved h h'.

Lemma mergeEntry_loopInv h0 s e :
  loopInv h0 s → ∃ s', mergeEntry mergeV zeroV s e = Some s' ∧ loopInv h0 s'.
Proof.
  intros Hinv. destruct e as [k [dc|]]; simpl.
  - destruct (mergeV_total (heap s) (default zeroV (content (heap s) (field s) !! k))
                (Some dc)) as (h' & c2 & merged & -> & Hp).
    simpl. pose proof (loopInv_heap _ _ _ Hinv Hp) as Hinv'.
    destruct merged; [|by eexists].
    destruct (loopInv_copyOnWrite _ _ Hinv') as ((Hp' & Ho') & Hon & _).
    destruct (Ho' Hon) as (l & Hf & Hl0 & Hl). rewrite Hf. simpl.
    eexists; split; [done|]. split; simpl.
    + by apply preserved_alter.
    + intros _. exists l. unfold storeAt. by rewrite length_alter.
  - destruct (content (heap s) (field s) !! k); [|by eexists].
    destruct (loopInv_copyOnWrite _ _ Hinv) as ((Hp' & Ho') & Hon & _).
    destruct (Ho' Hon) as (l & Hf & Hl0 & Hl).
    eexists; split; [done|]. rewrite Hf. split; simpl.
    + by apply preserved_alter.
    + intros _. exists l. by rewrite length_alter.
Qed.

Lemma forRange_loopInv h0 l s :
  loopInv h0 s →
  ∃ s', forRange (mergeEntry mergeV zeroV) l s = Some s' ∧ loopInv h0 s'.
Proof.
  revert s. induction l as [|e l IH]; intros s Hinv; simpl; [by eexists|].
  destruct (mergeEntry_loopInv h0 s e Hinv) as (s1 & -> & Hinv1). simpl.
  by apply IH.
Qed.

Lemma mergeMap_total om dm (s : Heap * bool) :
  ∃ h' c r, mergeMap mergeV zeroV om dm s = Some (h', c, r) ∧ preserved s.1 h'.
Proof.
  unfold mergeMap.
  destruct (forRange_loopInv s.1 (entries dm)
              {| heap := s.1; field := om; once := false; changed := s.2 |}
              (loopInv_start _ _ _)) as (s' & -> & Hp & _).
  simpl. by eexists _, _, _.
Qed.

Lemma mergeStruct_total os ds (s : Heap * bool) :
  ∃ h' c o2, mergeStruct mergeV os ds s = Some (h', c, o2) ∧ preserved s.1 h'.
Proof.
  unfold mergeStruct.
  destruct (mergeV_total s.1 os ds) as (h' & o2 & merged & -> & Hp). simpl.
  destruct merged; by eexists _, _, _.
Qed.
End merge_total.

Lemma forEach3_total {A B C D} (Q : A → Prop)
    (f : A → B → C → Heap * bool → option (Heap * bool * D)) l1 l2 l3 s :
  (∀ a b c s, Q a → ∃ h' ch d, f a b c s = Some (h', ch, d) ∧ preserved s.1 h') →
  Forall Q l1 →
  ∃ h' ch ds, forEach3 f l1 l2 l3 s = Some (h', ch, ds) ∧ preserved s.1 h'.
Proof.
  intros Hf HQ. revert l2 l3 s.
  induction HQ as [|a l1 Ha _ IH]; intros l2 l3 [h ch]; simpl.
  { eexists _, _, _. split; [done|apply preserved_refl]. }
  destruct l2 as [|b l2], l3 as [|c l3];
    try (eexists _, _, _; split; [done|apply preserved_refl]).
  destruct (Hf a b c (h, ch) Ha) as (h1 & ch1 & d & -> & Hp1). simpl.
  destruct (IH l2 l3 (h1, ch1)) as (h2 & ch2 & ds & -> & Hp2). simpl.
  eexists _, _, _. split; [done|]. by eapply preserved_trans.
Qed.

Lemma merge_total t :
  ∀ h o d, ∃ h' o' c, merge t h o d = Some (h', o', c) ∧ preserved h h'.
Proof.
  induction t as [fs ss ms IHss IHms] using Struct_ind'. intros h o [d|].
  2:{ rewrite merge_nil. eexists _, _, _. split; [done | apply preserved_refl]. }
  rewrite merge_unfold.
  destruct (mergeFields fs (vfields o) (dfields d) false) as [fields ch0].
  destruct (forEach3_total (λ st, ∀ h o d, ∃ h' o' c,
              merge st h o d = Some (h', o', c) ∧ preserved h h')
              (λ st os ds s, mergeStruct (merge st) os ds s)
              ss (vstructs o) (dstructs d) (h, ch0))
    as (h1 & ch1 & structs & -> & Hp1); [|done|].
  { intros st os ds s Hst. by apply mergeStruct_total. }
  simpl.
  destruct (forEach3_total (λ vt, ∀ h o d, ∃ h' o' c,
              merge vt h o d = Some (h', o', c) ∧ preserved h h')
              (λ vt om dm s, mergeMap (merge vt) (zero vt) om dm s)
              ms (vmaps o) (dmaps d) (h1, ch1))
    as (h2 & ch2 & maps & -> & Hp2); [|done|].
  { intros vt om dm s Hvt. by apply mergeMap_total. }
  simpl. eexists _, _, _. split; [done|]. by eapply preserved_trans.
Qed.

(** C6. Merge never mutates its base argument: for every base value and
    every delta, [merge] returns, and every map that was in the store when it
    was called (the maps of the base at every nesting depth among them) is
    still there with the entries it had: deletes and writes only reach maps
    that [copyOnWriteF] allocated during the call. *)
Theorem merge_never_mutates_base t h o d :
  ∃ h' o' c, merge t h o d = Some (h', o', c)
             ∧ ∀ l m, h !! l = Some m → h' !! l = Some m.
Proof. apply merge_total. Qed.

(** C5. Merge is a no-op on an absent delta: [merge(x, nil)] returns [x]
    itself, map references included, with [changed = false], and allocates
    nothing: the store is the one it was given. *)
Theorem merge_absent_delta t h x : merge t h x None = Some (h, x, false).
Proof. apply merge_nil. Qed.

(** ** Scalar slots *)




(** Once set, [changed] stays set. *)

Lemma copyOnWrite_changed s : changed s = true → changed (copyOnWrite s) = true.
Proof. unfold copyOnWrite. by destruct (once s). Qed.

Lemma mergeEntry_changed mergeV zeroV s e s' :
  mergeEntry mergeV zeroV s e = Some s' → changed s = true → changed s' = true.
Proof.
  destruct e as [k [dc|]]; simpl.
  - destruct (mergeV _ _ _) as [[[h c2] [|]]|]; simpl; [|by intros [= <-]|done].
    destruct (mapStore _ _ _ _) eqn:Hst; simpl; [|done]. intros [= <-] Hc. simpl.
    by apply (copyOnWrite_changed {| heap := h; field := field s; once := once s;
                                     changed := changed s |}).
  - destruct (content _ _ !! _); intros [= <-]; [|done]. apply copyOnWrite_changed.
Qed.

Lemma forRange_changed mergeV zeroV l s s' :
  forRange (mergeEntry mergeV zeroV) l s = Some s' →
  changed s = true → changed s' = true.
Proof.
  revert s. induction l as [|e l IH]; intros s; simpl; [by intros [= <-]|].
  destruct (mergeEntry mergeV zeroV s e) as [s1|] eqn:He; simpl; [|done].
  intros Hl Hc. eapply IH; [done|]. by eapply mergeEntry_changed.
Qed.

Lemma mergeMap_changed mergeV zeroV om dm h h' ch r :
  mergeMap mergeV zeroV om dm (h, true) = Some (h', ch, r) → ch = true.
Proof.
  unfold mergeMap. destruct (forRange _ _ _) as [s'|] eqn:Hl; simpl; [|done].
  intros [= _ <- _]. by eapply forRange_changed.
Qed.

Lemma mergeStruct_changed mergeS os ds h h' ch o2 :
  mergeStruct mergeS os ds (h, true) = Some (h', ch, o2) → ch = true.
Proof.
  unfold mergeStruct. destruct (mergeS _ _ _) as [[[h1 o1] [|]]|]; simpl; [| |done];
    by intros [= _ <- _].
Qed.

Lemma forEach3_changed {A B C D}
    (f : A → B → C → Heap * bool → option (Heap * bool * D)) l1 l2 l3 h h' ch ds :
  (∀ a b c h h' ch d, f a b c (h, true) = Some (h', ch, d) → ch = true) →
  forEach3 f l1 l2 l3 (h, true) = Some (h', ch, ds) → ch = true.
Proof.
  intros Hf. revert l2 l3 h h' ch ds.
  induction l1 as [|a l1 IH]; intros l2 l3 h h' ch ds; simpl; [by intros [= _ <- _]|].
  destruct l2 as [|b l2], l3 as [|c l3]; try by intros [= _ <- _].
  destruct (f a b c (h, true)) as [[[h1 ch1] d]|] eqn:Hfa; simpl; [|done].
  apply Hf in Hfa as ->.
  destruct (forEach3 f l1 l2 l3 (h1, true)) as [[[h2 ch2] ds2]|] eqn:Hr; simpl; [|done].
  intros [= _ <- _]. by eapply IH.
Qed.

Lemma merge_fields fs ss ms h o d h' o' c :
  merge (MkStruct fs ss ms) h o (Some d) = Some (h', o', c) →
  vfields o' = (mergeFields fs (vfields o) (dfields d) false).1
  ∧ ((mergeFields fs (vfields o) (dfields d) false).2 = true → c = true).
Proof.
  rewrite merge_unfold.
  destruct (mergeFields fs (vfields o) (dfields d) false) as [fields ch0].
  destruct (forEach3 _ ss _ _ _) as [[[h1 ch1] structs]|] eqn:H1; simpl; [|done].
  destruct (forEach3 _ ms _ _ _) as [[[h2 ch2] maps]|] eqn:H2; simpl; [|done].
  intros [= _ <- <-]. split; [done|]. intros ->.
  apply forEach3_changed in H1 as ->.
  - apply forEach3_changed in H2 as ->; [done|].
    intros ???????. by eapply mergeMap_changed.
  - intros ???????. by eapply mergeStruct_changed.
Qed.




(** ** Round trip and Copy on the samples *)

(** C1 fails on the code: with [old = T{M: {}}] and [new = T{M: {a: R{}}}]
    the entry of [a] equals the zero value of [R], [diff] finds nothing to
    report, and merging its result into [old] gives back [old], which has no
    entry for [a]. *)
Theorem roundtrip_loses_zero_entry :
  diff Sample.T Sample.store Sample.t_empty Sample.t_a0 = None
  ∧ merge Sample.T Sample.store Sample.t_empty
          (diff Sample.T Sample.store Sample.t_empty Sample.t_a0)
    = Some (Sample.store, Sample.t_empty, false)
  ∧ ¬ equal Sample.T Sample.store Sample.t_empty Sample.store Sample.t_a0.
Proof.
  split_and!; [by vm_compute..|].
  intros (_ & _ & Hm & _). specialize (Hm "a"). vm_compute in Hm. inversion Hm.
Qed.

(** C2 fails on the code: [Copy] of [Outer{In: Inner{M: {a: R{1}}}}] keeps
    the map of the nested struct, so a write through the copy shows in the
    original. *)
Theorem Copy_shares_nested_struct_map :
  ∃ h' y h'',
    Copy Sample.Outer Sample.store Sample.outer = (h', y)
    ∧ Sample.inM y = Sample.inM Sample.outer
    ∧ content h' (Sample.inM Sample.outer) !! "a" = Some (Sample.r 1)
    ∧ mapStore h' (Sample.inM y) "a" (Sample.r 9) = Some h''
    ∧ content h'' (Sample.inM Sample.outer) !! "a" = Some (Sample.r 9).
Proof. eexists _, _, _. split_and!; by vm_compute. Qed.

(** ** The entries [diff] writes for a map field *)

Lemma entry_assign k v l k' :
  entry k' (assign k v l) = if decide (k = k') then Some v else entry k' l.
Proof.
  induction l as [|[k1 v1] l IH]; simpl.
  - repeat case_decide; done.
  - destruct (decide (k1 = k)) as [->|Hne]; simpl.
    + repeat case_decide; done.
    + rewrite IH. repeat case_decide; congruence.
Qed.

Lemma entry_None_nil l : (∀ k, entry k l = None) → l = [].
Proof.
  destruct l as [|[k v] l]; [done|]. intros H. specialize (H k).
  simpl in H. by case_decide.
Qed.

Lemma entries_nilIfEmpty m : entries (nilIfEmpty m) = entries m.
Proof. by destruct m as [[|]|]. Qed.

Lemma elem_of_fst {A} (l : list (Key * A)) k : k ∈ l.*1 ↔ ∃ x, (k, x) ∈ l.
Proof.
  rewrite list_elem_of_fmap. split.
  - intros ([k' x] & -> & H). by exists x.
  - intros [x H]. by exists (k, x).
Qed.

Section diffMap.
Context (diffV : Value → Value → option Diff) (zeroV : Value).
Context (om nm : gmap Key Value).

Let add (i : DiffMap) (e : Key * Value) : DiffMap :=
  let '(k, nc) := e in
  match diffV (default zeroV (om !! k)) nc with
  | Some ip => Some (assign k (Some ip) (entries i))
  | None => i
  end.

Let remove (i : DiffMap) (e : Key * Value) : DiffMap :=
  let '(k, _) := e in
  match nm !! k with
  | None => Some (assign k None (entries i))
  | Some _ => i
  end.

Lemma entry_add_other l i k :
  k ∉ l.*1 → entry k (entries (foldl add i l)) = entry k (entries i).
Proof.
  revert i. induction l as [|[k1 x] l IH]; intros i Hk; [done|].
  simpl in *. apply not_elem_of_cons in Hk as [Hne Hk]. rewrite IH; [|done].
  destruct (diffV _ x); [|done]. simpl. rewrite entry_assign. by case_decide.
Qed.

Lemma entry_add l i k nc :
  NoDup l.*1 → (k, nc) ∈ l →
  entry k (entries (foldl add i l)) =
    match diffV (default zeroV (om !! k)) nc with
    | Some ip => Some (Some ip)
    | None => entry k (entries i)
    end.
Proof.
  revert i. induction l as [|[k1 x] l IH]; intros i Hnd Hin.
  { by apply elem_of_nil in Hin. }
  simpl in *. apply NoDup_cons in Hnd as [Hk1 Hnd].
  apply elem_of_cons in Hin as [[= <- <-]|Hin].
  - rewrite entry_add_other; [|done].
    destruct (diffV _ nc); [|done]. simpl. rewrite entry_assign. by case_decide.
  - rewrite IH; [|done..]. destruct (diffV _ nc); [done|].
    assert (k1 ≠ k) by (intros ->; apply Hk1, elem_of_fst; eauto).
    destruct (diffV _ x); [|done]. simpl. rewrite entry_assign. by case_decide.
Qed.

Lemma entry_remove_other l i k :
  k ∉ l.*1 → entry k (entries (foldl remove i l)) = entry k (entries i).
Proof.
  revert i. induction l as [|[k1 x] l IH]; intros i Hk; [done|].
  simpl in *. apply not_elem_of_cons in Hk as [Hne Hk]. rewrite IH; [|done].
  destruct (nm !! k1); [done|]. simpl. rewrite entry_assign. by case_decide.
Qed.

Lemma entry_remove l i k :
  NoDup l.*1 → k ∈ l.*1 →
  entry k (entries (foldl remove i l)) =
    match nm !! k with
    | None => Some None
    | Some _ => entry k (entries i)
    end.
Proof.
  revert i. induction l as [|[k1 x] l IH]; intros i Hnd Hin.
  { by apply elem_of_nil in Hin. }
  simpl in *. apply NoDup_cons in Hnd as [Hk1 Hnd].
  apply elem_of_cons in Hin as [<-|Hin].
  - rewrite entry_remove_other; [|done].
    destruct (nm !! k); [done|]. simpl. rewrite entry_assign. by case_decide.
  - rewrite IH; [|done..]. destruct (nm !! k) eqn:Hk; [|done].
    assert (k1 ≠ k) by (by intros ->).
    destruct (nm !! k1); [done|]. simpl. rewrite entry_assign. by case_decide.
Qed.

Lemma entry_diffMap k :
  entry k (entries (diffMap diffV zeroV om nm)) =
    match nm !! k with
    | Some nc => Some <$> diffV (default zeroV (om !! k)) nc
    | None => match om !! k with Some _ => Some None | None => None end
    end.
Proof.
  unfold diffMap. rewrite entries_nilIfEmpty.
  change (foldl _ (foldl _ (Some []) (map_to_list nm)) (map_to_list om))
    with (foldl remove (foldl add (Some []) (map_to_list nm)) (map_to_list om)).
  assert (entry k (entries (foldl add (Some []) (map_to_list nm))) =
            match nm !! k with
            | Some nc => Some <$> diffV (default zeroV (om !! k)) nc
            | None => None
            end) as Hadd.
  { destruct (nm !! k) as [nc|] eqn:Hn.
    - rewrite (entry_add _ _ k nc); [|apply NoDup_fst_map_to_list
                                      |by apply elem_of_map_to_list].
      by destruct (diffV _ nc).
    - rewrite entry_add_other; [done|]. rewrite elem_of_fst. intros [x Hx].
      apply elem_of_map_to_list in Hx. congruence. }
  destruct (om !! k) as [oc|] eqn:Ho.
  - rewrite entry_remove; [|apply NoDup_fst_map_to_list|].
    + rewrite Hadd. by destruct (nm !! k).
    + apply elem_of_fst. exists oc. by apply elem_of_map_to_list.
  - rewrite entry_remove_other.
    + rewrite Hadd. by destruct (nm !! k).
    + rewrite elem_of_fst. intros [x Hx]. apply elem_of_map_to_list in Hx. congruence.
Qed.

(** Every sub-delta in an entry is a result of [diffV]. *)
Lemma diffMap_entries :
  Forall (λ e : Key * option Diff,
            match e.2 with
            | None => True
            | Some d => ∃ a b, diffV a b = Some d
            end) (entries (diffMap diffV zeroV om nm)).
Proof.
  unfold diffMap. rewrite entries_nilIfEmpty.
  set (Q := λ e : Key * option Diff,
              match e.2 with None => True | Some d => ∃ a b, diffV a b = Some d end).
  assert (∀ k v l, Q (k, v) → Forall Q l → Forall Q (assign k v l)) as Hassign.
  { intros k v l Hv. induction 1 as [|[k1 v1] l H1 Hl IH]; simpl.
    - by repeat constructor.
    - case_decide; constructor; done. }
  assert (∀ l i, Forall Q (entries i) → Forall Q (entries (foldl add i l))) as Hadd.
  { induction l as [|[k x] l IH]; intros i Hi; [done|]. simpl. apply IH.
    destruct (diffV _ x) as [ip|] eqn:Hd; [|done]. simpl. apply Hassign; [|done].
    unfold Q. simpl. eauto. }
  assert (∀ l i, Forall Q (entries i) → Forall Q (entries (foldl remove i l))) as Hrem.
  { induction l as [|[k x] l IH]; intros i Hi; [done|]. simpl. apply IH.
    destruct (nm !! k); [done|]. simpl. by apply Hassign. }
  apply Hrem, Hadd. constructor.
Qed.
End diffMap.

(** ** Fields taken in step *)

Lemma zip3_lookup {A B C D} (f : A → B → C → D) l1 l2 l3 j :
  zip3 f l1 l2 l3 !! j =
    match l1 !! j, l2 !! j, l3 !! j with
    | Some a, Some b, Some c => Some (f a b c)
    | _, _, _ => None
    end.
Proof.
  revert l2 l3 j. induction l1 as [|a l1 IH]; intros [|b l2] [|c l3] [|j]; simpl;
    try done; try (by repeat case_match); apply IH.
Qed.

Lemma all3_lookup {A B C} (f : A → B → C → Prop) l1 l2 l3 j a b c :
  all3 f l1 l2 l3 → l1 !! j = Some a → l2 !! j = Some b → l3 !! j = Some c → f a b c.
Proof.
  revert l2 l3 j. induction l1 as [|a' l1 IH]; intros [|b' l2] [|c' l3] [|j]; simpl;
    try done.
  - by intros [? _] [= ->] [= ->] [= ->].
  - intros [_ ?]. by apply IH.
Qed.

Lemma all3_impl {A B C} (Q : A → Prop) (f g : A → B → C → Prop) l1 l2 l3 :
  Forall Q l1 → (∀ a b c, Q a → f a b c → g a b c) →
  all3 f l1 l2 l3 → all3 g l1 l2 l3.
Proof.
  intros HQ Hfg. revert l2 l3.
  induction HQ as [|a l1 Ha _ IH]; intros [|b l2] [|c l3]; simpl; try done.
  intros [? ?]. split; [by apply Hfg | by apply IH].
Qed.

Lemma all3_Forall {A B C} (f : A → B → C → Prop) l1 l2 l3 :
  Forall (λ a, ∀ b c, f a b c) l1 → all3 f l1 l2 l3.
Proof.
  intros H. revert l2 l3.
  induction H as [|a l1 Ha _ IH]; intros [|b l2] [|c l3]; simpl; done.
Qed.

Lemma forallb_zip3 {A B C D} (p : D → bool) (f : A → B → C → D) l1 l2 l3 :
  forallb p (zip3 f l1 l2 l3) = true ↔ all3 (λ a b c, p (f a b c) = true) l1 l2 l3.
Proof.
  revert l2 l3. induction l1 as [|a l1 IH]; intros [|b l2] [|c l3]; simpl; try done.
  rewrite andb_true_iff, IH. done.
Qed.

Lemma forallb_Forall {A} (p : A → bool) l :
  forallb p l = true ↔ Forall (λ x, p x = true) l.
Proof.
  induction l as [|x l IH]; simpl.
  - split; [constructor | done].
  - rewrite andb_true_iff, IH, Forall_cons. done.
Qed.

Lemma all3_diag {A B} (f : A → B → B → Prop) l1 l :
  Forall (λ a, ∀ b, f a b b) l1 → all3 f l1 l l.
Proof.
  intros H. revert l.
  induction H as [|a l1 Ha _ IH]; intros [|b l]; simpl; done.
Qed.

(** ** The same value read twice *)

Lemma equal_refl t h v : equal t h v h v.
Proof.
  revert v. induction t as [fs ss ms IHss IHms] using Struct_ind'. intros v. simpl.
  split_and!.
  - apply all3_diag. by apply Forall_true.
  - by apply all3_diag.
  - apply all3_diag. eapply Forall_impl; [exact IHms|].
    intros vt Hvt r k. simpl in Hvt. destruct (content h r !! k); by constructor.
Qed.

Lemma empty_unfold fs ss ms :
  empty (MkDiff fs ss ms) =
    forallb (λ f, bool_decide (f = None)) fs
    && forallb (λ s, match s with None => true | Some d => empty d end) ss
    && forallb (λ m : DiffMap, match entries m with [] => true | _ => false end) ms.
Proof. reflexivity. Qed.

(** [diff] of equal values reports nothing. *)
Lemma diff_equal t h o n : equal t h o h n → diff t h o n = None.
Proof.
  revert o n. induction t as [fs ss ms IHss IHms] using Struct_ind'.
  intros o n (Hf & Hs & Hm). rewrite diff_unfold. cbv zeta.
  rewrite empty_unfold.
  match goal with |- (if ?b then _ else _) = _ => assert (b = true) as ->; [|done] end.
  rewrite !andb_true_iff. split_and!; apply forallb_zip3.
  - eapply (all3_impl (λ _, True)); [by apply Forall_true| |exact Hf].
    intros _ a b _ ->. unfold diffField. rewrite decide_False; [done|]. by intros ?.
  - eapply all3_impl; [exact IHss| |exact Hs]. intros st a b IH Hab. simpl in *.
    by rewrite IH.
  - eapply all3_impl; [exact IHms| |exact Hm]. intros vt r1 r2 IH Hr. simpl in *.
    rewrite (entry_None_nil (entries (diffMap _ _ _ _))); [done|].
    intros k. rewrite entry_diffMap. specialize (Hr k).
    destruct Hr as [a b Hab|]; [|done]. simpl. by rewrite IH.
Qed.


(** ** What [diff] reports for the keys of a map field *)

Lemma empty_entries i j m : empty i = true → dmaps i !! j = Some m → entries m = [].
Proof.
  destruct i as [fs ss ms]. rewrite empty_unfold, !andb_true_iff. simpl.
  intros [_ Hm] Hj. apply forallb_Forall in Hm.
  eapply Forall_lookup_1 in Hm; [|done]. simpl in Hm. by destruct (entries m).
Qed.

Lemma diffEntry_diff t h o n j vt ro rn k :
  Maps t !! j = Some vt → vmaps o !! j = Some ro → vmaps n !! j = Some rn →
  diffEntry (diff t h o n) j k =
    entry k (entries (diffMap (diff vt h) (zero vt) (content h ro) (content h rn))).
Proof.
  destruct t as [fs ss ms]. intros Hvt Hro Hrn. simpl in Hvt.
  rewrite diff_unfold. cbv zeta.
  match goal with |- context [empty ?i] => set (d := i) end.
  assert (dmaps d !! j =
            Some (diffMap (diff vt h) (zero vt) (content h ro) (content h rn))) as Hj.
  { subst d. simpl. by rewrite zip3_lookup, Hvt, Hro, Hrn. }
  clearbody d. destruct (empty d) eqn:He.
  - by rewrite (empty_entries d j _ He Hj).
  - unfold diffEntry. simpl. by rewrite Hj.
Qed.



(** ** The entries of a delta made by [diff] *)

Lemma diff_nonempty t h o n d : diff t h o n = Some d → empty d = false.
Proof.
  destruct t as [fs ss ms]. rewrite diff_unfold. cbv zeta.
  destruct (empty _) eqn:He; [done|]. by intros [= <-].
Qed.

Lemma minimal_unfold fs ss ms :
  minimal (MkDiff fs ss ms) =
    forallb (λ s, match s with None => true | Some d' => minimal d' end) ss
    && forallb (λ m : DiffMap,
                  match m with
                  | None => true
                  | Some l =>
                      forallb (λ e : Key * option Diff,
                                 match e with
                                 | (_, None) => true
                                 | (_, Some d') => negb (empty d') && minimal d'
                                 end) l
                  end) ms.
Proof. reflexivity. Qed.

Lemma diff_minimal t : ∀ h o n d, diff t h o n = Some d → minimal d = true.
Proof.
  induction t as [fs ss ms IHss IHms] using Struct_ind'. intros h o n d.
  rewrite diff_unfold. cbv zeta. destruct (empty _); [done|]. intros [= <-].
  rewrite minimal_unfold, andb_true_iff. split; apply forallb_zip3, all3_Forall.
  - eapply Forall_impl; [exact IHss|]. intros st IH a b. simpl in IH.
    destruct (diff st h a b) eqn:Hd; [|done]. by eapply IH.
  - eapply Forall_impl; [exact IHms|]. intros vt IH r1 r2. simpl in IH.
    pose proof (diffMap_entries (diff vt h) (zero vt) (content h r1) (content h r2))
      as HQ.
    destruct (diffMap _ _ _ _) as [l|]; [|done]. simpl in HQ.
    apply forallb_Forall. eapply Forall_impl; [exact HQ|].
    intros [k [d'|]] Hd; [|done]. simpl in Hd. destruct Hd as (a & b & Hd).
    rewrite (diff_nonempty _ _ _ _ _ Hd). simpl. by eapply IH.
Qed.

Lemma entry_elem k v l : entry k l = Some v → (k, v) ∈ l.
Proof.
  induction l as [|[k1 v1] l IH]; simpl; [done|]. case_decide as Hk.
  - intros [= ->]. subst. by left.
  - intros H. right. by apply IH.
Qed.

Lemma minimal_entry d j k d' :
  minimal d = true → diffEntry (Some d) j k = Some (Some d') → empty d' = false.
Proof.
  destruct d as [fs ss ms]. rewrite minimal_unfold, andb_true_iff.
  intros [_ Hm]. unfold diffEntry. simpl.
  destruct (ms !! j) as [m|] eqn:Hj; simpl; [|done].
  apply forallb_Forall in Hm. eapply Forall_lookup_1 in Hm; [|done].
  destruct m as [l|]; simpl; [|done]. intros He%entry_elem.
  apply forallb_Forall in Hm. rewrite Forall_forall in Hm. apply Hm in He.
  simpl in He. apply andb_true_iff in He as [He _]. by apply negb_true_iff.
Qed.

Lemma emptyDiff_empty t : empty (emptyDiff t) = true.
Proof.
  destruct t as [fs ss ms]. unfold emptyDiff. rewrite empty_unfold. simpl.
  rewrite !andb_true_iff. split_and!; apply forallb_Forall, Forall_fmap;
    by apply Forall_true.
Qed.

(** C9. Diff never produces an explicit-empty map entry: in a delta that
    [diff] returns, every entry of every map, at any depth, is the nil
    marker or a sub-delta that is not empty; no entry is the delta that
    [Empty(key)] stores; and a key of [new] that [old] lacks and whose value
    is the zero value of the value type gets no entry at all. *)
Theorem diff_no_empty_entries t h o n d :
  diff t h o n = Some d →
  minimal d = true
  ∧ (∀ j k vt, diffEntry (Some d) j k ≠ Some (Some (emptyDiff vt)))
  ∧ ∀ j vt ro rn k,
      Maps t !! j = Some vt → vmaps o !! j = Some ro → vmaps n !! j = Some rn →
      content h ro !! k = None → content h rn !! k = Some (zero vt) →
      diffEntry (Some d) j k = None.
Proof.
  intros Hd. pose proof (diff_minimal _ _ _ _ _ Hd) as Hmin. split_and!; [done| |].
  - intros j k vt He. apply (minimal_entry d j k _ Hmin) in He.
    by rewrite emptyDiff_empty in He.
  - intros j vt ro rn k Hvt Hro Hrn Ho Hn. rewrite <-Hd.
    rewrite (diffEntry_diff t h o n j vt ro rn); [|done..].
    rewrite entry_diffMap, Hn, Ho. simpl. by rewrite diff_equal; [|apply equal_refl].
Qed.

Lemma diff_no_empty_entries_witness :
  minimal (MkDiff [] [] [Some [("b", None)]]) = true
  ∧ (∀ j k vt, diffEntry (Some (MkDiff [] [] [Some [("b", None)]])) j k
               ≠ Some (Some (emptyDiff vt)))
  ∧ ∀ j vt ro rn k,
      Maps Sample.T !! j = Some vt →
      vmaps Sample.t_ab !! j = Some ro → vmaps Sample.t_ac !! j = Some rn →
      content Sample.store ro !! k = None →
      content Sample.store rn !! k = Some (zero vt) →
      diffEntry (Some (MkDiff [] [] [Some [("b", None)]])) j k = None.
Proof.
  apply (diff_no_empty_entries Sample.T Sample.store Sample.t_ab Sample.t_ac).
  by vm_compute.
Defined.

(** ** Entries of the delta do not touch other keys *)

Lemma copyEntries_id m : copyEntries m = m.
Proof.
  unfold copyEntries.
  assert (∀ (l : list (Key * Value)) (m0 : gmap Key Value) k,
            NoDup l.*1 →
            foldl (λ (m : gmap Key Value) '(k, v), <[k := v]> m) m0 l !! k =
              match (list_to_map l : gmap Key Value) !! k with
              | Some v => Some v
              | None => m0 !! k
              end) as Hfold.
  { induction l as [|[k1 v1] l IH]; intros m0 k Hnd; simpl; [done|].
    apply NoDup_cons in Hnd as [Hk1 Hnd]. rewrite IH; [|done].
    destruct (decide (k = k1)) as [->|Hne].
    - rewrite !lookup_insert_eq. by rewrite (not_elem_of_list_to_map_1 _ _ Hk1).
    - by rewrite !lookup_insert_ne. }
  apply map_eq. intros k. rewrite Hfold; [|apply NoDup_fst_map_to_list].
  rewrite list_to_map_to_list, lookup_empty. by destruct (m !! k).
Qed.

Lemma content_alloc h m : content (alloc h m).1 (Some (alloc h m).2) = m.
Proof. simpl. rewrite lookup_app_r; [|done]. by rewrite Nat.sub_diag. Qed.

Lemma content_alter h l f :
  (l < length h)%nat → content (alter f l h) (Some l) = f (content h (Some l)).
Proof.
  intros Hl. destruct (lookup_lt_is_Some_2 h l Hl) as [m Hm]. simpl.
  by rewrite list_lookup_alter_eq, Hm.
Qed.

Lemma copyOnWrite_same_content s :
  content (heap (copyOnWrite s)) (field (copyOnWrite s)) = content (heap s) (field s).
Proof.
  unfold copyOnWrite. destruct (once s); [done|].
  cbn [heap field]. rewrite copyEntries_id.
  apply (content_alloc (heap s) (content (heap s) (field s))).
Qed.

Lemma copyOnWrite_allocated s :
  allocated (heap s) (field s) → allocated (heap (copyOnWrite s)) (field (copyOnWrite s)).
Proof.
  unfold copyOnWrite. destruct (once s); [done|]. intros _ l [= <-].
  simpl. rewrite length_app. simpl. lia.
Qed.

Section other_keys.
Context (mergeV : Heap → Value → option Diff → Merged) (zeroV : Value).
Hypothesis mergeV_total :
  ∀ h o d, ∃ h' o' c, mergeV h o d = Some (h', o', c) ∧ preserved h h'.

Lemma mergeEntry_other_key s e s' k :
  allocated (heap s) (field s) → e.1 ≠ k →
  mergeEntry mergeV zeroV s e = Some s' →
  allocated (heap s') (field s')
  ∧ content (heap s') (field s') !! k = content (heap s) (field s) !! k.
Proof.
  intros Hal Hne. destruct e as [k1 [dc|]]; simpl in *.
  - destruct (mergeV_total (heap s) (default zeroV (content (heap s) (field s) !! k1))
                (Some dc)) as (h1 & c2 & merged & -> & Hp).
    simpl.
    set (s1 := {| heap := h1; field := field s; once := once s; changed := changed s |}).
    assert (allocated (heap s1) (field s1)) as Hal1.
    { intros l Hl. apply Hal in Hl. apply preserved_length in Hp. simpl. lia. }
    assert (content (heap s1) (field s1) = content (heap s) (field s)) as Hc1.
    { simpl. destruct (field s) as [l|] eqn:Hf; [|done].
      apply preserved_content; [done|]. by apply Hal. }
    destruct merged; [|intros [= <-]; by rewrite Hc1].
    pose proof (copyOnWrite_allocated s1 Hal1) as Hal2.
    pose proof (copyOnWrite_same_content s1) as Hc2.
    destruct (field (copyOnWrite s1)) as [l|] eqn:Hf; [|done]. simpl.
    intros [= <-]. cbn [heap field]. unfold storeAt. split.
    + intros l' [= <-]. rewrite length_alter. by apply Hal2.
    + rewrite content_alter; [|by apply Hal2].
      rewrite lookup_insert_ne; [|done]. by rewrite Hc2, Hc1.
  - destruct (content (heap s) (field s) !! k1); [|by intros [= <-]].
    intros [= <-]. cbn [heap field].
    pose proof (copyOnWrite_allocated s Hal) as Hal2.
    pose proof (copyOnWrite_same_content s) as Hc2.
    destruct (field (copyOnWrite s)) as [l|] eqn:Hf; [|by rewrite <-Hc2].
    simpl mapDelete. split.
    + intros l' [= <-]. rewrite length_alter. by apply Hal2.
    + rewrite content_alter; [|by apply Hal2].
      rewrite lookup_delete_ne; [|done]. by rewrite Hc2.
Qed.

Lemma forRange_other_key l s s' k :
  allocated (heap s) (field s) → k ∉ l.*1 →
  forRange (mergeEntry mergeV zeroV) l s = Some s' →
  allocated (heap s') (field s')
  ∧ content (heap s') (field s') !! k = content (heap s) (field s) !! k.
Proof.
  revert s. induction l as [|e l IH]; intros s Hal Hk; simpl.
  { by intros [= <-]. }
  simpl in Hk. apply not_elem_of_cons in Hk as [Hne Hk].
  destruct (mergeEntry mergeV zeroV s e) as [s1|] eqn:He; simpl; [|done].
  apply (mergeEntry_other_key s e s1 k) in He as [Hal1 Hc1]; [|done..].
  intros Hl. apply IH in Hl as [Hal' Hc']; [|done..]. by rewrite Hc', Hc1.
Qed.

Lemma forRange_app l1 l2 s :
  forRange (mergeEntry mergeV zeroV) (l1 ++ l2) s =
    forRange (mergeEntry mergeV zeroV) l1 s
      ≫= forRange (mergeEntry mergeV zeroV) l2.
Proof.
  revert s. induction l1 as [|e l1 IH]; intros s; simpl; [done|].
  destruct (mergeEntry mergeV zeroV s e) as [s1|]; simpl; [apply IH|done].
Qed.

Lemma mergeMap_drop_nil om l1 l2 k (s : Heap * bool) :
  allocated s.1 om → content s.1 om !! k = None → k ∉ l1.*1 →
  mergeMap mergeV zeroV om (Some (l1 ++ (k, None) :: l2)) s =
    mergeMap mergeV zeroV om (Some (l1 ++ l2)) s.
Proof.
  intros Hal Hk Hl1. unfold mergeMap. simpl entries. rewrite !forRange_app.
  set (s0 := {| heap := s.1; field := om; once := false; changed := s.2 |}).
  destruct (forRange (mergeEntry mergeV zeroV) l1 s0) as [s1|] eqn:H1; [|done].
  apply (forRange_other_key l1 s0 s1 k) in H1 as [_ Hc]; [|done..].
  simpl. simpl in Hc. by rewrite Hc, Hk.
Qed.
End other_keys.

Lemma forEach3_insert {S A B C D} (Inv : S → Prop)
    (f : A → B → C → S → option (S * D)) l1 l2 l3 j c' s :
  Inv s →
  (∀ a b c s s' d, Inv s → f a b c s = Some (s', d) → Inv s') →
  (∀ a b c s, l1 !! j = Some a → l2 !! j = Some b → l3 !! j = Some c → Inv s →
              f a b c' s = f a b c s) →
  forEach3 f l1 l2 (<[j := c']> l3) s = forEach3 f l1 l2 l3 s.
Proof.
  intros Hs Hstep. revert l2 l3 j s Hs.
  induction l1 as [|a l1 IH]; intros [|b l2] [|c l3] j s Hs Hj; try done.
  destruct j as [|j]; simpl.
  - by rewrite (Hj a b c s).
  - destruct (f a b c s) as [[s1 d]|] eqn:Hf; simpl; [|done].
    rewrite IH; [done| |].
    + by eapply Hstep.
    + intros a' b' c0 s0. apply Hj.
Qed.

(** C10. The nil marker on an absent key is a no-op: when the loop over a
    map field reaches an entry [(k, nil)] and the map has no [k], the step
    leaves the store, [o.F], the once flag and [changed] as they are (no
    clone, no write); and for every base value whose [j]-th map lacks [k],
    merging a delta that has the nil marker under [k] in its [j]-th map
    returns the store, the value and the flag that merging the delta without
    that entry returns. *)
Theorem nil_marker_absent_key_noop t h o d j vt r l1 l2 k :
  Maps t !! j = Some vt → vmaps o !! j = Some r → allocated h r →
  dmaps d !! j = Some (Some (l1 ++ (k, None) :: l2)) → k ∉ l1.*1 →
  content h r !! k = None →
  (∀ s, content (heap s) (field s) !! k = None →
        mergeEntry (merge vt) (zero vt) s (k, None) = Some s)
  ∧ merge t h o (Some d) =
      merge t h o (Some (MkDiff (dfields d) (dstructs d)
                                (<[j := Some (l1 ++ l2)]> (dmaps d)))).
Proof.
  intros Hvt Hr Hal Hd Hl1 Hk. split.
  { intros s Hs. simpl. by rewrite Hs. }
  destruct t as [fs ss ms]. simpl in Hvt. rewrite !merge_unfold.
  cbn [dfields dstructs dmaps].
  destruct (mergeFields fs (vfields o) (dfields d) false) as [fields ch0].
  destruct (forEach3_total (λ _, True)
              (λ st os ds s, mergeStruct (merge st) os ds s)
              ss (vstructs o) (dstructs d) (h, ch0))
    as (h1 & ch1 & structs & -> & Hp1); [|by apply Forall_true|].
  { intros st os ds s _. apply mergeStruct_total, merge_total. }
  simpl in Hp1. cbn [mbind option_bind].
  rewrite (forEach3_insert (λ s : Heap * bool, preserved h s.1)); [done|done| |].
  - intros vt' om dm s [s' ch'] r' Hs Hf.
    destruct (mergeMap_total (merge vt') (zero vt') (merge_total vt') om dm s)
      as (h2 & c2 & r2 & Hm & Hp2).
    rewrite Hm in Hf. injection Hf as <- <- <-. by eapply preserved_trans.
  - intros vt' om dm s Hvt' Hom Hdm Hs.
    assert (vt' = vt) as -> by congruence. assert (om = r) as -> by congruence.
    assert (dm = Some (l1 ++ (k, None) :: l2)) as -> by congruence.
    symmetry. apply mergeMap_drop_nil; [apply merge_total| | |done].
    + intros l Hl. apply Hal in Hl. apply preserved_length in Hs. lia.
    + destruct r as [l|]; [|done]. rewrite (preserved_content h); [done..|].
      by apply Hal.
Qed.

Lemma nil_marker_absent_key_noop_witness :
  (∀ s, content (heap s) (field s) !! "z" = None →
        mergeEntry (merge Sample.R) (zero Sample.R) s ("z", None) = Some s)
  ∧ merge Sample.T Sample.store Sample.t_a
          (Some (MkDiff [] [] [Some [("b", Some (Sample.dF 2)); ("z", None)]])) =
      merge Sample.T Sample.store Sample.t_a
          (Some (MkDiff [] [] [Some [("b", Some (Sample.dF 2))]])).
Proof.
  apply (nil_marker_absent_key_noop Sample.T Sample.store Sample.t_a
           (MkDiff [] [] [Some [("b", Some (Sample.dF 2)); ("z", None)]])
           0 Sample.R (Some 3%nat) [("b", Some (Sample.dF 2))] [] "z");
    try reflexivity.
  - intros l [= <-]. simpl. lia.
  - simpl. apply not_elem_of_cons. split; [done|apply not_elem_of_nil].
Defined.

(** ** Values and the part of the store they reach *)

Lemma all2_Forall2 {A B} (f : A → B → Prop) l1 l2 :
  all2 f l1 l2 ↔ Forall2 f l1 l2.
Proof.
  revert l2. induction l1 as [|a l1 IH]; intros [|b l2]; simpl.
  - split; [constructor|done].
  - split; [done|inversion 1].
  - split; [done|inversion 1].
  - rewrite IH, Forall2_cons. done.
Qed.

Lemma all2_impl {A B} (Q : A → Prop) (f g : A → B → Prop) l1 l2 :
  Forall Q l1 → (∀ a b, Q a → f a b → g a b) → all2 f l1 l2 → all2 g l1 l2.
Proof.
  intros HQ Hfg. revert l2.
  induction HQ as [|a l1 Ha _ IH]; intros [|b l2]; simpl; try done.
  intros [? ?]. split; [by apply Hfg | by apply IH].
Qed.

Lemma wfValue_unfold P fs ss ms h v :
  wfValue P (MkStruct fs ss ms) h v ↔
    length (vfields v) = length fs
    ∧ all2 (λ st sv, wfValue P st h sv) ss (vstructs v)
    ∧ all2 (λ vt r, wfRef P vt h r) ms (vmaps v).
Proof. reflexivity. Qed.

Lemma equal_unfold fs ss ms h1 v1 h2 v2 :
  equal (MkStruct fs ss ms) h1 v1 h2 v2 ↔
    all3 (λ _ a b, a = b) fs (vfields v1) (vfields v2)
    ∧ all3 (λ st a b, equal st h1 a h2 b) ss (vstructs v1) (vstructs v2)
    ∧ all3 (λ vt r1 r2, equalMap vt h1 r1 h2 r2) ms (vmaps v1) (vmaps v2).
Proof. reflexivity. Qed.

Lemma wfDiff_unfold fs ss ms d :
  wfDiff (MkStruct fs ss ms) d ↔
    length (dfields d) = length fs
    ∧ all2 (λ st sd, wfDiffOpt st sd) ss (dstructs d)
    ∧ all2 (λ vt dm, wfDiffMap vt dm) ms (dmaps d).
Proof. reflexivity. Qed.

Lemma agree_content P h h' (l : loc) :
  agree P h h' → P l → content h' (Some l) = content h (Some l).
Proof. intros Ha Hl. simpl. by rewrite (Ha l Hl). Qed.

Lemma agree_sym P h h' : agree P h h' → agree P h' h.
Proof. intros Ha l Hl. symmetry. by apply Ha. Qed.

Lemma preserved_agree (P : loc → Prop) h h' :
  (∀ l, P l → (l < length h)%nat) → preserved h h' → agree P h h'.
Proof.
  intros HP Hp l Hl. destruct (lookup_lt_is_Some_2 h l (HP l Hl)) as [m Hm].
  by rewrite Hm, (Hp _ _ Hm).
Qed.

Lemma wfValue_impl t : ∀ (P Q : loc → Prop) h v,
  (∀ l, P l → Q l) → wfValue P t h v → wfValue Q t h v.
Proof.
  induction t as [fs ss ms IHss IHms] using Struct_ind'. intros P Q h v HPQ.
  rewrite !wfValue_unfold. intros (Hf & Hs & Hm). split_and!; [done| |].
  - eapply all2_impl; [exact IHss| |exact Hs]. intros st sv IH. by apply IH.
  - eapply all2_impl; [exact IHms| |exact Hm]. intros vt [l|] IH; [|done].
    intros [Hl Hv]. split; [by apply HPQ|]. eapply map_Forall_impl; [exact Hv|].
    intros k x. by apply IH.
Qed.

Lemma wfValue_agree t : ∀ (P : loc → Prop) h h' v,
  agree P h h' → wfValue P t h v → wfValue P t h' v.
Proof.
  induction t as [fs ss ms IHss IHms] using Struct_ind'. intros P h h' v Ha.
  rewrite !wfValue_unfold. intros (Hf & Hs & Hm). split_and!; [done| |].
  - eapply all2_impl; [exact IHss| |exact Hs]. intros st sv IH. by apply IH.
  - eapply all2_impl; [exact IHms| |exact Hm]. intros vt [l|] IH; [|done].
    intros [Hl Hv]. split; [done|]. rewrite (agree_content P h h'); [|done..].
    eapply map_Forall_impl; [exact Hv|]. intros k x. by apply IH.
Qed.

Lemma wfValue_zero t : ∀ P h, wfValue P t h (zero t).
Proof.
  induction t as [fs ss ms IHss IHms] using Struct_ind'. intros P h.
  rewrite wfValue_unfold. simpl. split_and!.
  - by rewrite length_fmap.
  - clear IHms. induction IHss as [|st ss Hst _ IH]; simpl; [done|]. split; [apply Hst|done].
  - clear. induction ms as [|vt ms IH]; simpl; done.
Qed.

Lemma all3_impl_wf {A B C} (Q : A → Prop) (w1 : A → B → Prop) (w2 : A → C → Prop)
    (f g : A → B → C → Prop) l1 l2 l3 :
  Forall Q l1 → all2 w1 l1 l2 → all2 w2 l1 l3 →
  (∀ a b c, Q a → w1 a b → w2 a c → f a b c → g a b c) →
  all3 f l1 l2 l3 → all3 g l1 l2 l3.
Proof.
  intros HQ H1 H2 Hfg. revert l2 l3 H1 H2.
  induction HQ as [|a l1 Ha _ IH]; intros [|b l2] [|c l3]; simpl; try done.
  intros [? ?] [? ?] [? ?]. split; [by apply Hfg | by apply IH].
Qed.

Lemma wfRef_content P vt h h' r :
  wfRef P vt h r → agree P h h' → content h' r = content h r.
Proof. destruct r as [l|]; [|done]. intros [Hl _] Ha. by eapply agree_content. Qed.

Lemma wfRef_lookup P vt h r k x :
  wfRef P vt h r → content h r !! k = Some x → wfValue P vt h x.
Proof.
  destruct r as [l|]; [|done]. intros [_ Hv] Hk. by apply (Hv k x).
Qed.

Lemma equal_agree t : ∀ (P1 P2 : loc → Prop) h1 h1' h2 h2' v1 v2,
  wfValue P1 t h1 v1 → agree P1 h1 h1' →
  wfValue P2 t h2 v2 → agree P2 h2 h2' →
  equal t h1 v1 h2 v2 → equal t h1' v1 h2' v2.
Proof.
  induction t as [fs ss ms IHss IHms] using Struct_ind'.
  intros P1 P2 h1 h1' h2 h2' v1 v2.
  rewrite !wfValue_unfold, !equal_unfold.
  intros (_ & Hs1 & Hm1) Ha1 (_ & Hs2 & Hm2) Ha2 (Hf & Hs & Hm). split_and!; [done| |].
  - eapply all3_impl_wf; [exact IHss|exact Hs1|exact Hs2| |exact Hs].
    intros st a b IH Hw1 Hw2 Heq. by apply (IH P1 P2 h1 h1' h2 h2').
  - eapply all3_impl_wf; [exact IHms|exact Hm1|exact Hm2| |exact Hm].
    intros vt r1 r2 IH Hw1 Hw2 Heq k. cbv beta in *. specialize (Heq k).
    rewrite (wfRef_content P1 vt h1 h1' r1), (wfRef_content P2 vt h2 h2' r2); [|done..].
    destruct (content h1 r1 !! k) as [a|] eqn:Hk1, (content h2 r2 !! k) as [b|] eqn:Hk2;
      inversion Heq; subst; constructor.
    apply (IH P1 P2 h1 h1' h2 h2'); [by eapply wfRef_lookup|done|
                                     by eapply wfRef_lookup|done..].
Qed.

(** ** The scalar stage of merge *)

Lemma mergeFields_spec fs : ∀ os ds ch0 os' ch,
  length os = length fs → length ds = length fs →
  mergeFields fs os ds ch0 = (os', ch) →
  length os' = length fs
  ∧ ((ch = ch0 ∧ os' = os) ∨ (ch = true ∧ ¬ all3 (λ _ a b, a = b) fs os os')).
Proof.
  induction fs as [|ty fs IH]; intros [|o os] [|d ds] ch0 os' ch; simpl; try done.
  { intros _ _ [= <- <-]. split; [done|by left]. }
  intros [= Hlo] [= Hld].
  destruct (mergeField o d ch0) as [o1 ch1] eqn:Hf.
  destruct (mergeFields fs os ds ch1) as [os1 ch2] eqn:Hfs.
  intros [= <- <-]. destruct (IH _ _ _ _ _ Hlo Hld Hfs) as [Hlen Hrest].
  split; [by rewrite length_cons, Hlen|].
  assert ((o1 = o ∧ ch1 = ch0) ∨ (o1 ≠ o ∧ ch1 = true)) as [[-> ->]|[Hne ->]].
  { destruct d as [v|]; simpl in Hf.
    - case_decide; injection Hf as <- <-; [by right|by left].
    - injection Hf as <- <-. by left. }
  - destruct Hrest as [[-> ->]|[-> Hd]]; [by left|right].
    split; [done|]. simpl. by intros [_ ?].
  - right. split.
    + destruct Hrest as [[-> _]|[-> _]]; done.
    + simpl. intros [? _]. done.
Qed.

(** ** The loop over a map field, on well-formed values *)

Lemma copyOnWrite_preserved s : preserved (heap s) (heap (copyOnWrite s)).
Proof.
  unfold copyOnWrite. destruct (once s); [apply preserved_refl|apply preserved_app].
Qed.

Lemma copyOnWrite_once s : once (copyOnWrite s) = true.
Proof. unfold copyOnWrite. by destruct (once s) eqn:Ho. Qed.

Section map_loop.
Context (P : loc → Prop) (vt : Struct) (h0 : Heap) (r0 : MapRef) (ch0 : bool).
Hypothesis HP : ∀ l, P l → (l < length h0)%nat.
Hypothesis Hr0 : wfRef P vt h0 r0.

Lemma reach_lt seen s i :
  loopFrame P vt h0 r0 ch0 seen s → reach P h0 s i → (i < length (heap s))%nat.
Proof.
  intros (Hp & _) [Hi|(_ & Hi & _)]; [|done].
  apply HP in Hi. apply preserved_length in Hp. lia.
Qed.

Lemma loopFrame_start :
  loopFrame P vt h0 r0 ch0 []
    {| heap := h0; field := r0; once := false; changed := ch0 |}.
Proof.
  split_and!; simpl; try done.
  - apply preserved_refl.
  - intros l ->. destruct Hr0 as [Hl _]. by apply HP.
  - destruct r0 as [l|]; [|apply map_Forall_empty].
    destruct Hr0 as [_ Hv]. eapply map_Forall_impl; [exact Hv|].
    intros k x. apply wfValue_impl. intros i Hi. by left.
Qed.

Lemma loopFrame_seen seen k s :
  loopFrame P vt h0 r0 ch0 seen s → loopFrame P vt h0 r0 ch0 (k :: seen) s.
Proof.
  intros (Hp & Hal & Hf0 & Hf1 & Hv & Hl). split_and!; try done.
  intros k' Hk'. apply Hl. intros Hin. apply Hk'. by right.
Qed.

Lemma loopFrame_heap seen s h1 :
  loopFrame P vt h0 r0 ch0 seen s → preserved (heap s) h1 →
  loopFrame P vt h0 r0 ch0 seen
    {| heap := h1; field := field s; once := once s; changed := changed s |}.
Proof.
  intros Hfr Hp1. pose proof Hfr as (Hp & Hal & Hf0 & Hf1 & Hv & Hl).
  pose proof (preserved_length _ _ Hp1) as Hlen.
  assert (content h1 (field s) = content (heap s) (field s)) as Hc.
  { destruct (field s) as [l|] eqn:Hf; [|done].
    apply preserved_content; [done|]. by apply Hal. }
  split_and!; simpl; try done.
  - by eapply preserved_trans.
  - intros l Hf. apply Hal in Hf. lia.
  - rewrite Hc. eapply map_Forall_impl; [exact Hv|]. intros k x Hx.
    eapply wfValue_impl; [|eapply wfValue_agree; [|exact Hx]].
    + intros i [Hi|(? & ? & ?)]; [by left|right]. simpl. split_and!; [done|lia|done].
    + apply preserved_agree; [|done]. intros i. by apply reach_lt with seen.
  - intros k Hk. rewrite Hc. by apply Hl.
Qed.

Lemma loopFrame_copyOnWrite seen s :
  loopFrame P vt h0 r0 ch0 seen s → loopFrame P vt h0 r0 ch0 seen (copyOnWrite s).
Proof.
  intros Hfr. pose proof Hfr as (Hp & Hal & Hf0 & Hf1 & Hv & Hl).
  pose proof (copyOnWrite_same_content s) as Hc.
  pose proof (preserved_length _ _ Hp) as Hlen.
  unfold copyOnWrite in *. destruct (once s) eqn:Hon; [done|].
  cbn [alloc heap field once changed] in *.
  split_and!; cbn [heap field once changed]; try done.
  - eapply preserved_trans; [done|apply preserved_app].
  - intros l [= <-]. rewrite length_app. simpl. lia.
  - intros _. split; [done|]. by exists (length (heap s)).
  - rewrite Hc. eapply map_Forall_impl; [exact Hv|]. intros k x Hx.
    eapply wfValue_impl; [|eapply wfValue_agree; [|exact Hx]].
    + intros i [Hi|(? & ? & ?)]; [by left|right]. cbn [heap field].
      rewrite length_app. simpl. split_and!; [done|lia|]. intros [= ->]. lia.
    + apply preserved_agree; [|apply preserved_app]. intros i. by apply reach_lt with seen.
  - intros k Hk. rewrite Hc. by apply Hl.
Qed.

Lemma loopFrame_alter seen s l f k1 :
  loopFrame P vt h0 r0 ch0 seen s → field s = Some l → once s = true →
  (∀ m k, k ≠ k1 → f m !! k = m !! k) →
  map_Forall (λ _ x, wfValue (reach P h0 s) vt (heap s) x) (f (content (heap s) (Some l))) →
  loopFrame P vt h0 r0 ch0 (k1 :: seen)
    {| heap := alter f l (heap s); field := field s; once := once s;
       changed := changed s |}.
Proof.
  intros Hfr Hf Hon Hother Hnew.
  pose proof Hfr as (Hp & Hal & Hf0 & Hf1 & Hv & Hl).
  destruct (Hf1 Hon) as (_ & l' & Hf' & Hl0). rewrite Hf in Hf'. injection Hf' as <-.
  assert (l < length (heap s))%nat as Hlt by (by apply Hal).
  split_and!; cbn [heap field once changed]; try done.
  - by apply preserved_alter.
  - intros l' Hl'. rewrite length_alter. by apply Hal.
  - rewrite Hf, content_alter; [|done]. eapply map_Forall_impl; [exact Hnew|].
    intros k x Hx. eapply wfValue_impl; [|eapply wfValue_agree; [|exact Hx]].
    + intros i [Hi|(? & ? & Hi)]; [by left|right]. cbn [heap field].
      rewrite length_alter. rewrite Hf in Hi. done.
    + intros i Hi. apply list_lookup_alter_ne. intros ->.
      destruct Hi as [Hi|(_ & _ & Hi)]; [apply HP in Hi; lia|by rewrite Hf in Hi].
  - intros k Hk. apply not_elem_of_cons in Hk as [Hne Hk].
    rewrite Hf, content_alter; [|done]. rewrite Hother; [|done].
    rewrite <-Hf. by apply Hl.
Qed.
Hypothesis IHvt : mergeSpec vt.

Lemma loopExact_step seen s k1 dc s' :
  loopExact P vt h0 r0 ch0 seen s → k1 ∉ seen → wfDiffOpt vt dc →
  mergeEntry (merge vt) (zero vt) s (k1, dc) = Some s' →
  loopExact P vt h0 r0 ch0 (k1 :: seen) s'.
Proof.
  intros (Hfr & Hno & Hyes) Hk1 Hdc.
  pose proof Hfr as (Hp & Hal & Hf0 & Hf1 & Hv & Hl).
  pose proof (Hl k1 Hk1) as Hcur.
  assert (loopExact P vt h0 r0 ch0 (k1 :: seen) s) as Hsame.
  { split_and!; [by apply loopFrame_seen|done..]. }
  destruct dc as [d'|]; simpl.
  - (* a sub-delta *)
    set (c := default (zero vt) (content (heap s) (field s) !! k1)).
    assert (wfValue (reach P h0 s) vt (heap s) c) as Hwc.
    { subst c. destruct (content (heap s) (field s) !! k1) as [x|] eqn:Hx; simpl.
      - by apply (Hv k1 x).
      - apply wfValue_zero. }
    destruct (merge_total vt (heap s) c (Some d')) as (h1 & c2 & merged & Hm & Hp1).
    rewrite Hm. simpl.
    destruct (IHvt (reach P h0 s) (heap s) c (Some d') h1 c2 merged)
      as (Hw2 & Hfalse & Htrue); [intros i; by apply (reach_lt seen)|done..|].
    destruct merged.
    2:{ destruct (Hfalse eq_refl) as [-> ->]. intros [= <-]. by destruct s. }
    clear Hfalse. specialize (Htrue eq_refl).
    set (sh := {| heap := h1; field := field s; once := once s; changed := changed s |}).
    pose proof (loopFrame_heap seen s h1 Hfr Hp1) as Hfrh. fold sh in Hfrh.
    pose proof (loopFrame_copyOnWrite seen sh Hfrh) as Hfr1.
    pose proof (copyOnWrite_once sh) as Hon1.
    pose proof (copyOnWrite_preserved sh) as Hp2.
    pose proof (copyOnWrite_same_content sh) as Hc1.
    set (s1 := copyOnWrite sh) in *.
    pose proof Hfr1 as (_ & Hal1 & _ & Hf11 & Hv1 & _).
    destruct (Hf11 Hon1) as (_ & l & Hfl & Hl0). rewrite Hfl. simpl.
    assert (l < length (heap s1))%nat as Hlt by (by apply Hal1).
    assert (∀ i, reach P h0 s i ∨ fresh (heap s) h1 i → reach P h0 s1 i) as Hreach.
    { intros i Hi. pose proof (preserved_length _ _ Hp1) as Hlen1.
      pose proof (preserved_length _ _ Hp2) as Hlen2. simpl in Hlen2.
      pose proof (preserved_length _ _ Hp) as Hlen0.
      assert (P i ∨ (length h0 ≤ i)%nat ∧ (i < length h1)%nat
                      ∧ (once s = true → Some i ≠ field s)) as [Hi'|(Hi1 & Hi2 & Hi3)].
      { destruct Hi as [[Hi|(? & ? & ?)]|[? ?]]; [by left|right..].
        - split_and!; [done|lia|done].
        - split_and!; [lia|done|]. intros Hon Heq. symmetry in Heq.
          apply Hal in Heq. lia. }
      { by left. }
      right. split_and!; [done|lia|]. subst s1. unfold copyOnWrite in *.
      destruct (once sh) eqn:Honh; cbn [heap field] in *.
      - by apply Hi3.
      - intros [= ->]. lia. }
    assert (wfValue (reach P h0 s1) vt (heap s1) c2) as Hwc2.
    { eapply wfValue_impl; [exact Hreach|]. eapply wfValue_agree; [|exact Hw2].
      apply preserved_agree; [|done]. intros i [Hi|[_ Hi]]; [|done].
      apply (reach_lt seen s) in Hi; [|done]. apply preserved_length in Hp1. lia. }
    intros [= <-]. unfold storeAt. split_and!; cbn [heap field once changed].
    + rewrite <-Hfl. apply (loopFrame_alter seen s1 l); [done..| |].
      * intros m k Hk. by apply lookup_insert_ne.
      * apply map_Forall_insert_2; [done|]. by rewrite <-Hfl.
    + by rewrite Hon1.
    + intros _ Heq. specialize (Heq k1). rewrite content_alter in Heq; [|done].
      rewrite lookup_insert_eq, <-Hcur in Heq.
      destruct (content (heap s) (field s) !! k1) as [x|] eqn:Hx; [|inversion Heq].
      inversion Heq as [? ? Hxe|]; subst. apply Htrue. subst c. simpl.
      assert (wfValue P vt h0 x) as Hwx.
      { eapply wfRef_lookup; [exact Hr0|]. by rewrite <-Hcur. }
      assert (agree (reach P h0 s1) h1 (alter <[k1:=c2]> l (heap s1))) as Hag.
      { intros i Hi. assert (i < length h1 ∧ i ≠ l)%nat as [Hi1 Hi2].
        { pose proof (preserved_length _ _ Hp1). pose proof (preserved_length _ _ Hp).
          destruct Hi as [Hi|(_ & Hi1 & Hi2)]; [apply HP in Hi; lia|].
          rewrite Hfl in Hi2. split; [|by intros ->].
          subst s1. unfold copyOnWrite in *.
          destruct (once sh); cbn [heap field alloc] in *; [done|].
          rewrite length_app in Hi1. simpl in Hi1. injection Hfl as <-.
          destruct (decide (i = length h1)) as [->|]; [done|lia]. }
        rewrite list_lookup_alter_ne; [|done].
        destruct (lookup_lt_is_Some_2 h1 i Hi1) as [m Hm1].
        rewrite Hm1. by apply Hp2. }
      eapply (equal_agree vt P (reach P h0 s1) h0 (heap s)
                (alter <[k1:=c2]> l (heap s1)) h1); [done| | | |done].
      * by apply preserved_agree.
      * eapply wfValue_agree; [exact Hag|].
        eapply wfValue_impl; [exact Hreach|exact Hw2].
      * by apply agree_sym.
  - (* the nil marker *)
    destruct (content (heap s) (field s) !! k1) as [x|] eqn:Hx;
      [|by intros [= <-]].
    pose proof (loopFrame_copyOnWrite seen s Hfr) as Hfr1.
    pose proof (copyOnWrite_once s) as Hon1.
    pose proof (copyOnWrite_same_content s) as Hc1.
    set (s1 := copyOnWrite s) in *.
    pose proof Hfr1 as (_ & Hal1 & _ & Hf11 & Hv1 & _).
    destruct (Hf11 Hon1) as (_ & l & Hfl & Hl0). rewrite Hfl. simpl.
    assert (l < length (heap s1))%nat as Hlt by (by apply Hal1).
    intros [= <-]. split_and!; cbn [heap field once changed].
    + rewrite <-Hfl. apply (loopFrame_alter seen s1 l); [done..| |].
      * intros m k Hk. by apply lookup_delete_ne.
      * apply map_Forall_delete. by rewrite <-Hfl.
    + by rewrite Hon1.
    + intros _ Heq. specialize (Heq k1). rewrite content_alter in Heq; [|done].
      rewrite lookup_delete_eq, <-Hcur in Heq. inversion Heq.
Qed.

Lemma loopExact_loop l : ∀ seen s s',
  loopExact P vt h0 r0 ch0 seen s →
  NoDup l.*1 → (∀ k, k ∈ l.*1 → k ∉ seen) →
  Forall (λ e : Key * option Diff, wfDiffOpt vt e.2) l →
  forRange (mergeEntry (merge vt) (zero vt)) l s = Some s' →
  ∃ seen', loopExact P vt h0 r0 ch0 seen' s'.
Proof.
  induction l as [|[k1 dc] l IH]; intros seen s s' Hinv Hnd Hseen Hwf.
  { intros [= <-]. by exists seen. }
  change (forRange ?f (?e :: ?l) ?s) with (f s e ≫= forRange f l).
  destruct (mergeEntry (merge vt) (zero vt) s (k1, dc)) as [s1|] eqn:He; [|done].
  cbn [mbind option_bind]. simpl in Hnd, Hseen. apply NoDup_cons in Hnd as [Hk1 Hnd].
  apply Forall_cons in Hwf as [Hdc Hwf].
  apply loopExact_step with (seen := seen) in He; [|done| |done].
  2:{ apply Hseen. by left. }
  apply (IH (k1 :: seen)); [done..| |done].
  intros k Hk. apply not_elem_of_cons. split; [by intros ->|].
  apply Hseen. by right.
Qed.

Lemma mergeMap_spec dm h' ch' r' :
  wfDiffMap vt dm →
  mergeMap (merge vt) (zero vt) r0 dm (h0, ch0) = Some (h', ch', r') →
  preserved h0 h'
  ∧ wfRef (λ l, P l ∨ fresh h0 h' l) vt h' r'
  ∧ ((h' = h0 ∧ r' = r0 ∧ ch' = ch0) ∨ (ch' = true ∧ ¬ equalMap vt h0 r0 h' r')).
Proof.
  intros [Hnd Hwf]. unfold mergeMap. simpl.
  destruct (forRange _ _ _) as [s'|] eqn:Hl; simpl; [|done]. intros [= <- <- <-].
  apply (loopExact_loop _ []) in Hl as (seen & Hfr & Hno & Hyes);
    [|split_and!; [apply loopFrame_start|done..]|done| |done].
  2:{ intros k _. apply not_elem_of_nil. }
  destruct Hfr as (Hp & Hal & Hf0 & Hf1 & Hv & _). split; [done|].
  destruct (once s') eqn:Hon.
  - destruct (Hf1 eq_refl) as (Hch & l & Hfl & Hl0). split; [|by right; auto].
    rewrite Hfl. split.
    + right. split; [done|]. by apply Hal.
    + rewrite <-Hfl. eapply map_Forall_impl; [exact Hv|]. intros k x.
      apply wfValue_impl. intros i [Hi|(? & ? & ?)]; [by left|by right].
  - destruct (Hf0 eq_refl) as [Hfr0 Hch]. rewrite (Hno eq_refl), Hfr0, Hch.
    split; [|by left]. destruct r0 as [l|]; [|done]. destruct Hr0 as [Hl Hvals].
    split; [by left|]. eapply map_Forall_impl; [exact Hvals|]. intros k x.
    apply wfValue_impl. intros i Hi. by left.
Qed.
End map_loop.

Lemma wfRef_impl (P Q : loc → Prop) vt h r :
  (∀ l, P l → Q l) → wfRef P vt h r → wfRef Q vt h r.
Proof.
  intros HPQ. destruct r as [l|]; [|done]. intros [Hl Hv]. split; [by apply HPQ|].
  eapply map_Forall_impl; [exact Hv|]. intros k x. by apply wfValue_impl.
Qed.

Lemma wfRef_agree (P : loc → Prop) vt h h' r :
  agree P h h' → wfRef P vt h r → wfRef P vt h' r.
Proof.
  intros Ha. destruct r as [l|]; [|done]. intros [Hl Hv]. split; [done|].
  rewrite (agree_content P h h'); [|done..].
  eapply map_Forall_impl; [exact Hv|]. intros k x. by apply wfValue_agree.
Qed.

Lemma equalMap_agree vt (P1 P2 : loc → Prop) h1 h1' h2 h2' r1 r2 :
  wfRef P1 vt h1 r1 → agree P1 h1 h1' →
  wfRef P2 vt h2 r2 → agree P2 h2 h2' →
  equalMap vt h1 r1 h2 r2 → equalMap vt h1' r1 h2' r2.
Proof.
  intros Hw1 Ha1 Hw2 Ha2 Heq k. specialize (Heq k).
  rewrite (wfRef_content P1 vt h1 h1' r1), (wfRef_content P2 vt h2 h2' r2); [|done..].
  destruct (content h1 r1 !! k) as [a|] eqn:Hk1, (content h2 r2 !! k) as [b|] eqn:Hk2;
    inversion Heq; subst; constructor.
  apply (equal_agree vt P1 P2 h1 h1' h2 h2'); [by eapply wfRef_lookup|done|
                                               by eapply wfRef_lookup|done..].
Qed.

(** ** A stage of merge: the loop over the fields of one kind *)

Section stage.
Context {B C : Type} (hb : Heap) (Q : Struct → Prop).
Context (f : Struct → B → C → Heap * bool → option (Heap * bool * B)).
Context (WfIn : Struct → B → Prop) (WfC : Struct → C → Prop).
Context (WfOut : Struct → Heap → B → Prop) (Differs : Struct → B → Heap → B → Prop).
Hypothesis WfOut_mono : ∀ a h h' d,
  preserved hb h → preserved h h' → WfOut a h d → WfOut a h' d.
Hypothesis Differs_mono : ∀ a b h h' d,
  WfIn a b → preserved hb h → preserved h h' → WfOut a h d →
  Differs a b h d → Differs a b h' d.
Hypothesis step : ∀ a b c hs chs h' ch' d,
  Q a → preserved hb hs → WfIn a b → WfC a c →
  f a b c (hs, chs) = Some (h', ch', d) →
  preserved hs h' ∧ WfOut a h' d
  ∧ ((h' = hs ∧ d = b ∧ ch' = chs) ∨ (ch' = true ∧ Differs a b h' d)).

Lemma forEach3_stage l1 : ∀ l2 l3 hs chs hf chf ds,
  Forall Q l1 → preserved hb hs → all2 WfIn l1 l2 → all2 WfC l1 l3 →
  forEach3 f l1 l2 l3 (hs, chs) = Some (hf, chf, ds) →
  preserved hs hf
  ∧ all2 (λ a d, WfOut a hf d) l1 ds
  ∧ ((hf = hs ∧ ds = l2 ∧ chf = chs)
     ∨ (chf = true
        ∧ ∃ j a b d, l1 !! j = Some a ∧ l2 !! j = Some b ∧ ds !! j = Some d
                     ∧ Differs a b hf d)).
Proof.
  induction l1 as [|a l1 IH]; intros [|b l2] [|c l3] hs chs hf chf ds HQ Hp;
    try done.
  { intros _ _ [= <- <- <-]. split_and!; [apply preserved_refl|done|by left]. }
  simpl all2. intros [Hb Hl2] [Hc Hl3].
  apply Forall_cons in HQ as [Ha HQ].
  change (forEach3 f (a :: l1) (b :: l2) (c :: l3) (hs, chs)) with
    ('(s, d) ← f a b c (hs, chs);
     '(s, ds) ← forEach3 f l1 l2 l3 s; Some (s, d :: ds)).
  destruct (f a b c (hs, chs)) as [[[h1 ch1] d1]|] eqn:Hf; [|done].
  cbn [mbind option_bind].
  destruct (forEach3 f l1 l2 l3 (h1, ch1)) as [[[h2 ch2] ds2]|] eqn:Hr; [|done].
  cbn [mbind option_bind]. intros [= <- <- <-].
  destruct (step a b c hs chs h1 ch1 d1 Ha Hp Hb Hc Hf) as (Hp1 & Hw1 & Hd1).
  assert (preserved hb h1) as Hpb1 by (by eapply preserved_trans).
  destruct (IH l2 l3 h1 ch1 h2 ch2 ds2 HQ Hpb1 Hl2 Hl3 Hr) as (Hp2 & Hw2 & Hd2).
  split_and!.
  - by eapply preserved_trans.
  - by eapply WfOut_mono.
  - done.
  - destruct Hd1 as [(-> & -> & ->)|[-> Hd1]].
    + destruct Hd2 as [(-> & -> & ->)|[-> (j & a' & b' & d' & ? & ? & ? & ?)]];
        [by left|right].
      split; [done|]. by exists (S j), a', b', d'.
    + right. split.
      * destruct Hd2 as [(_ & _ & ->)|[-> _]]; done.
      * exists 0%nat, a, b, d1. split_and!; [done..|]. by eapply Differs_mono.
Qed.
End stage.

(** ** Merge on well-formed values *)

Lemma fresh_mono h hx hx' l :
  preserved hx hx' → fresh h hx l → fresh h hx' l.
Proof. intros Hp%preserved_length [? ?]. split; [done|lia]. Qed.

Lemma grown_lt (P : loc → Prop) h hx l :
  (∀ l, P l → (l < length h)%nat) → preserved h hx →
  P l ∨ fresh h hx l → (l < length hx)%nat.
Proof.
  intros HP Hp%preserved_length [Hl%HP|[_ Hl]]; [lia|done].
Qed.

Lemma wfValue_grow t (P : loc → Prop) h hx hx' v :
  (∀ l, P l → (l < length h)%nat) → preserved h hx → preserved hx hx' →
  wfValue (λ l, P l ∨ fresh h hx l) t hx v →
  wfValue (λ l, P l ∨ fresh h hx' l) t hx' v.
Proof.
  intros HP Hp Hp' Hw. eapply wfValue_impl; [|eapply wfValue_agree; [|exact Hw]].
  - intros l [Hl|Hl]; [by left|right]. by eapply fresh_mono.
  - apply preserved_agree; [|done]. intros l. by apply grown_lt.
Qed.

Lemma wfRef_grow vt (P : loc → Prop) h hx hx' r :
  (∀ l, P l → (l < length h)%nat) → preserved h hx → preserved hx hx' →
  wfRef (λ l, P l ∨ fresh h hx l) vt hx r →
  wfRef (λ l, P l ∨ fresh h hx' l) vt hx' r.
Proof.
  intros HP Hp Hp' Hw. eapply wfRef_impl; [|eapply wfRef_agree; [|exact Hw]].
  - intros l [Hl|Hl]; [by left|right]. by eapply fresh_mono.
  - apply preserved_agree; [|done]. intros l. by apply grown_lt.
Qed.

Lemma agree_refl P h : agree P h h.
Proof. by intros l _. Qed.

Section stages.
Context (P : loc → Prop) (h : Heap).
Hypothesis HP : ∀ l, P l → (l < length h)%nat.

Lemma mergeStruct_spec st os ds hs chs h' ch' o2 :
  mergeSpec st → preserved h hs → wfValue P st h os → wfDiffOpt st ds →
  mergeStruct (merge st) os ds (hs, chs) = Some (h', ch', o2) →
  preserved hs h'
  ∧ wfValue (λ l, P l ∨ fresh h h' l) st h' o2
  ∧ ((h' = hs ∧ o2 = os ∧ ch' = chs) ∨ (ch' = true ∧ ¬ equal st h os h' o2)).
Proof.
  intros IH Hp Hw Hd. unfold mergeStruct. simpl.
  destruct (merge_total st hs os ds) as (h1 & o1 & merged & Hm & Hp1).
  rewrite Hm. simpl.
  pose proof (preserved_length _ _ Hp) as Hlen.
  assert (agree P h hs) as Hag by (by apply preserved_agree).
  destruct (IH P hs os ds h1 o1 merged) as (Hw1 & Hfalse & Htrue); [|by eapply wfValue_agree|done..|].
  { intros l Hl%HP. lia. }
  assert (wfValue (λ l, P l ∨ fresh h h1 l) st h1 o1) as Hw1'.
  { eapply wfValue_impl; [|exact Hw1]. intros l [Hl|[? ?]]; [by left|right].
    split; [lia|done]. }
  destruct merged; intros [= <- <- <-].
  - split_and!; [done..|right]. split; [done|]. intros Heq. apply Htrue; [done|].
    eapply (equal_agree st P _ h hs h1 h1); [done|done|exact Hw1|apply agree_refl|done].
  - destruct (Hfalse eq_refl) as [-> ->]. split_and!; [done| |by left].
    eapply wfValue_impl; [|by eapply wfValue_agree]. intros l Hl. by left.
Qed.

Lemma mergeMap_spec' vt om dm hs chs h' ch' r' :
  mergeSpec vt → preserved h hs → wfRef P vt h om → wfDiffMap vt dm →
  mergeMap (merge vt) (zero vt) om dm (hs, chs) = Some (h', ch', r') →
  preserved hs h'
  ∧ wfRef (λ l, P l ∨ fresh h h' l) vt h' r'
  ∧ ((h' = hs ∧ r' = om ∧ ch' = chs) ∨ (ch' = true ∧ ¬ equalMap vt h om h' r')).
Proof.
  intros IH Hp Hw Hd Hm.
  pose proof (preserved_length _ _ Hp) as Hlen.
  assert (agree P h hs) as Hag by (by apply preserved_agree).
  assert (∀ l, P l → (l < length hs)%nat) as HPs by (intros l Hl%HP; lia).
  assert (wfRef P vt hs om) as Hws by (by eapply wfRef_agree).
  destruct (mergeMap_spec P vt hs om chs HPs Hws IH dm h' ch' r' Hd Hm)
    as (Hp1 & Hw1 & Hdis).
  assert (wfRef (λ l, P l ∨ fresh h h' l) vt h' r') as Hw1'.
  { eapply wfRef_impl; [|exact Hw1]. intros l [Hl|[? ?]]; [by left|right].
    split; [lia|done]. }
  split_and!; [done..|]. destruct Hdis as [?|[-> Hne]]; [by left|right].
  split; [done|]. intros Heq. apply Hne.
  eapply (equalMap_agree vt P _ h hs h' h'); [done|done|exact Hw1|apply agree_refl|done].
Qed.

Lemma differs_grow st os hx hx' o2 :
  wfValue P st h os → preserved h hx → preserved hx hx' →
  wfValue (λ l, P l ∨ fresh h hx l) st hx o2 →
  ¬ equal st h os hx o2 → ¬ equal st h os hx' o2.
Proof.
  intros Hw Hp Hp' Hw2 Hne Heq. apply Hne.
  assert (agree (λ l, P l ∨ fresh h hx l) hx hx') as Hag.
  { apply preserved_agree; [|done]. intros l. by apply grown_lt. }
  eapply (equal_agree st P _ h h hx' hx);
    [done|apply agree_refl|by eapply wfValue_agree|by apply agree_sym|done].
Qed.

Lemma differsMap_grow vt om hx hx' r' :
  wfRef P vt h om → preserved h hx → preserved hx hx' →
  wfRef (λ l, P l ∨ fresh h hx l) vt hx r' →
  ¬ equalMap vt h om hx r' → ¬ equalMap vt h om hx' r'.
Proof.
  intros Hw Hp Hp' Hw2 Hne Heq. apply Hne.
  assert (agree (λ l, P l ∨ fresh h hx l) hx hx') as Hag.
  { apply preserved_agree; [|done]. intros l. by apply grown_lt. }
  eapply (equalMap_agree vt P _ h h hx' hx);
    [done|apply agree_refl|by eapply wfRef_agree|by apply agree_sym|done].
Qed.
End stages.

Lemma merge_spec t : mergeSpec t.
Proof.
  induction t as [fs ss ms IHss IHms] using Struct_ind'.
  intros P h o d h' o' c HP Hwf Hd. destruct d as [d|].
  2:{ rewrite merge_nil. intros [= <- <- <-]. split_and!; [|done..].
      eapply wfValue_impl; [|exact Hwf]. intros l Hl. by left. }
  rewrite merge_unfold.
  pose proof Hwf as (Hlf & Hws & Hwm)%wfValue_unfold.
  simpl in Hd. apply wfDiff_unfold in Hd as (Hld & Hds & Hdm).
  destruct (mergeFields fs (vfields o) (dfields d) false) as [fields ch0] eqn:Hfs.
  apply mergeFields_spec in Hfs as [Hlen Hfd]; [|done..].
  destruct (forEach3 _ ss _ _ _) as [[[h1 ch1] structs]|] eqn:H1; [|done].
  cbn [mbind option_bind].
  destruct (forEach3 _ ms _ _ _) as [[[h2 ch2] maps]|] eqn:H2; [|done].
  cbn [mbind option_bind]. intros [= <- <- <-].
  apply (forEach3_stage h mergeSpec _ (λ st v, wfValue P st h v) wfDiffOpt
           (λ st hx v, wfValue (λ l, P l ∨ fresh h hx l) st hx v)
           (λ st b hx v, ¬ equal st h b hx v)) in H1
    as (Hp1 & Hw1 & Hd1); [| | | |done|apply preserved_refl|done|done].
  2:{ intros st hx hx' v. by apply wfValue_grow. }
  2:{ intros st b hx hx' v. by apply differs_grow. }
  2:{ intros st os ds hs chs hx chx o2 IH Hp Hw Hdd. by apply mergeStruct_spec. }
  apply (forEach3_stage h mergeSpec _ (λ vt r, wfRef P vt h r) wfDiffMap
           (λ vt hx r, wfRef (λ l, P l ∨ fresh h hx l) vt hx r)
           (λ vt b hx r, ¬ equalMap vt h b hx r)) in H2
    as (Hp2 & Hw2 & Hd2); [| | | |done|done|done|done].
  2:{ intros vt hx hx' r. by apply wfRef_grow. }
  2:{ intros vt b hx hx' r. by apply differsMap_grow. }
  2:{ intros vt om dm hs chs hx chx r' IH Hp Hw Hdd. by apply mergeMap_spec'. }
  split_and!.
  - apply wfValue_unfold. simpl. split_and!; [done| |done].
    eapply all2_impl; [exact IHss| |exact Hw1]. intros st v _ Hv. cbv beta in *.
    by eapply wfValue_grow.
  - intros Hc. destruct Hd2 as [(E1 & E2 & E3)|[? _]]; [|congruence].
    destruct Hd1 as [(E4 & E5 & E6)|[? _]]; [|congruence].
    destruct Hfd as [[_ E7]|[? _]]; [|congruence]. subst. by destruct o.
  - intros Hc (Ef & Es & Em)%equal_unfold. cbn [vfields vstructs vmaps] in Ef, Es, Em.
    destruct Hd2 as [(E1 & E2 & E3)|[_ (j & vt & r & r' & Hj1 & Hj2 & Hj3 & Hne)]].
    2:{ apply Hne. exact (all3_lookup _ _ _ _ j vt r r' Em Hj1 Hj2 Hj3). }
    destruct Hd1 as [(E4 & E5 & E6)|[_ (j & st & v & v' & Hj1 & Hj2 & Hj3 & Hne)]].
    2:{ apply Hne. subst h2. exact (all3_lookup _ _ _ _ j st v v' Es Hj1 Hj2 Hj3). }
    destruct Hfd as [[? _]|[_ Hne]]; [congruence|]. by apply Hne.
Qed.

(** C8. The changed flag is exact: for every well-formed base value and
    every well-formed delta (made by [diff] or not), [merge] returns
    [changed = true] if and only if the value it returns differs from the
    base; with [changed = false] it returns the base itself and the store it
    was given, as for a scalar slot that holds the base's value or map
    entries that change nothing. *)
Theorem changed_flag_exact t h o d h' o' c :
  wf t h o → wfDiffOpt t d →
  merge t h o d = Some (h', o', c) →
  (c = true ↔ ¬ equal t h o h' o')
  ∧ (c = false → h' = h ∧ o' = o).
Proof.
  intros Hwf Hd Hm.
  destruct (merge_spec t (λ l, (l < length h)%nat) h o d h' o' c)
    as (_ & Hfalse & Htrue); [done..|].
  split; [|done]. split; [done|]. intros Hne. destruct c; [done|].
  destruct (Hfalse eq_refl) as [-> ->]. destruct Hne. apply equal_refl.
Qed.

Lemma changed_flag_exact_witness :
  (false = true ↔ ¬ equal Sample.T Sample.store Sample.t_a Sample.store Sample.t_a)
  ∧ (false = false → Sample.store = Sample.store ∧ Sample.t_a = Sample.t_a).
Proof.
  apply (changed_flag_exact Sample.T Sample.store Sample.t_a
           (Some (MkDiff [] [] [Some [("a", Some (Sample.dF 1)); ("z", None)]]))).
  - split_and!; simpl; try done. split; [|done]. split; [lia|].
    apply map_Forall_singleton. by split_and!.
  - split_and!; simpl; try done. split; [|done]. split.
    + apply NoDup_cons. split; [|apply NoDup_singleton].
      by intros Hin%list_elem_of_singleton.
    + repeat constructor; simpl; done.
  - by vm_compute.
Defined.

(** ** What Copy does copy *)

Section copy_map.
Context (copyV : Heap → Value → Heap * Value).
Hypothesis copyV_preserved : ∀ h v, preserved h (copyV h v).1.

Lemma copyMap_fresh om h :
  preserved h (copyMap copyV om h).1 ∧ (copyMap copyV om h).2 = Some (length h).
Proof.
  unfold copyMap. cbn [alloc]. generalize (map_to_list (content h om)). intros l.
  split; [|done]. cbn [fst].
  assert (preserved h (h ++ [∅])) as Hstart by apply preserved_app.
  revert Hstart. generalize (h ++ [∅ : gmap Key Value]).
  induction l as [|[k v] l IH]; intros hc Hc; [done|].
  simpl foldl. apply IH. pose proof (copyV_preserved hc v) as Hv.
  destruct (copyV hc v) as [h1 v']. unfold storeAt.
  apply preserved_alter; [|done]. by eapply preserved_trans.
Qed.
End copy_map.

(** The maps that are fields of the copy itself are fresh, and no map of the
    store is written. *)
Lemma Copy_fresh t : ∀ h o,
  preserved h (Copy t h o).1
  ∧ vstructs (Copy t h o).2 = vstructs o
  ∧ Forall (λ r : MapRef, ∃ l, r = Some l ∧ (length h ≤ l)%nat) (vmaps (Copy t h o).2).
Proof.
  induction t as [fs ss ms _ IHms] using Struct_ind'. intros h o.
  rewrite Copy_unfold. generalize (vmaps o) as oms.
  assert (∀ oms h0, preserved h h0 →
            preserved h (copyMaps Copy ms oms h0).1
            ∧ Forall (λ r : MapRef, ∃ l, r = Some l ∧ (length h ≤ l)%nat)
                     (copyMaps Copy ms oms h0).2) as Hmaps.
  { induction IHms as [|vt ms Hvt _ IH]; intros [|om oms] h0 Hp; try (simpl; done).
    change (copyMaps Copy (vt :: ms) (om :: oms) h0) with
      (let '(h, r) := copyMap (Copy vt) om h0 in
       let '(h, rs) := copyMaps Copy ms oms h in (h, r :: rs)).
    destruct (copyMap_fresh (Copy vt) (λ h v, proj1 (Hvt h v)) om h0) as [Hp1 Hr].
    destruct (copyMap (Copy vt) om h0) as [h1 r]. simpl in Hp1, Hr. subst r.
    destruct (IH oms h1) as [Hp2 Hrs]; [by eapply preserved_trans|].
    destruct (copyMaps Copy ms oms h1) as [h2 rs]. simpl in *.
    split; [done|]. constructor; [|done]. exists (length h0).
    split; [done|]. by apply preserved_length. }
  intros oms. destruct (Hmaps oms h (preserved_refl h)) as [Hp Hrs].
  by destruct (copyMaps Copy ms oms h) as [h' rs].
Qed.

(** * Further properties of the generated code *)

(** ** The methods of a delta map ([diffTemplate]) *)

Lemma assign_keys k v l :
  (assign k v l).*1 = if decide (k ∈ l.*1) then l.*1 else l.*1 ++ [k].
Proof.
  induction l as [|[k1 v1] l IH]; [done|]. cbn [assign].
  destruct (decide (k1 = k)) as [->|Hne]; rewrite !fmap_cons; cbn [fst].
  - destruct (decide (k ∈ k :: l.*1)) as [Hin|Hin]; [done|]. destruct Hin. by left.
  - rewrite IH. destruct (decide (k ∈ l.*1)) as [Hin|Hin];
      destruct (decide (k ∈ k1 :: l.*1)) as [Hin'|Hin']; try done.
    + destruct Hin'. by right.
    + apply elem_of_cons in Hin' as [?|?]; congruence.
Qed.

(** X1. [Set(key, value)] on a delta map: afterwards the entry of [key] is
    [value] and every other key has the entry it had; a key that had an
    entry keeps its place and the map does not grow, a new key adds one
    entry. *)
Theorem DiffMap_Set_entry m key value :
  (∀ k, entry k (entries (DiffMap.Set_ m key value)) =
        if decide (key = k) then Some value else entry k (entries m))
  ∧ (entries (DiffMap.Set_ m key value)).*1 =
      if decide (key ∈ (entries m).*1) then (entries m).*1
      else (entries m).*1 ++ [key].
Proof.
  assert (entries (DiffMap.Set_ m key value) = assign key value (entries m)) as ->.
  { by destruct m. }
  split; [|apply assign_keys]. intros k. apply entry_assign.
Qed.

(** ** Single entries of a delta map in merge *)

Lemma mergeFields_absent fs : ∀ os ch,
  length os = length fs → mergeFields fs os (const None <$> fs) ch = (os, ch).
Proof.
  induction fs as [|ty fs IH]; intros [|o os] ch; simpl; try done.
  intros [= Hl]. by rewrite IH.
Qed.

Lemma forEach3_absent {S A B C} (f : A → B → C → S → option (S * B)) (c0 : C) l1 :
  ∀ l2 s,
    (∀ a b s, f a b c0 s = Some (s, b)) → length l2 = length l1 →
    forEach3 f l1 l2 (const c0 <$> l1) s = Some (s, l2).
Proof.
  induction l1 as [|a l1 IH]; intros [|b l2] s Hf; simpl; try done.
  intros [= Hl]. rewrite Hf. simpl. by rewrite IH.
Qed.

Lemma all2_same_length {A B} (f : A → B → Prop) l1 l2 :
  all2 f l1 l2 → length l2 = length l1.
Proof. rewrite all2_Forall2. intros H. symmetry. by eapply Forall2_length. Qed.

Lemma merge_emptyDiff fs ss ms h o :
  length (vfields o) = length fs → length (vstructs o) = length ss →
  length (vmaps o) = length ms →
  merge (MkStruct fs ss ms) h o (Some (emptyDiff (MkStruct fs ss ms)))
  = Some (h, o, false).
Proof.
  intros Hf Hs Hm. rewrite merge_unfold. unfold emptyDiff. cbn [dfields dstructs dmaps].
  cbn [Fields StructFields Maps]. rewrite mergeFields_absent; [|done].
  rewrite (forEach3_absent _ None ss); [|..|done].
  2:{ intros st os [h1 ch1]. unfold mergeStruct. by rewrite merge_nil. }
  cbn [mbind option_bind].
  rewrite (forEach3_absent _ None ms); [|..|done].
  2:{ by intros vt om [h1 ch1]. }
  cbn [mbind option_bind]. by destruct o.
Qed.

Lemma wf_lengths P fs ss ms h o :
  wfValue P (MkStruct fs ss ms) h o →
  length (vfields o) = length fs ∧ length (vstructs o) = length ss
  ∧ length (vmaps o) = length ms.
Proof.
  intros (Hf & Hs & Hm)%wfValue_unfold.
  split_and!; [done|by eapply all2_same_length..].
Qed.

(** X2. A delta with nothing in it (what [&TDiff{}] is) changes nothing:
    for every well-formed value, merging it returns the value and the store
    as they were with [changed = false]. *)
Theorem merge_empty_delta_noop t h o :
  wf t h o → merge t h o (Some (emptyDiff t)) = Some (h, o, false).
Proof.
  destruct t as [fs ss ms]. intros (Hf & Hs & Hm)%wf_lengths.
  by apply merge_emptyDiff.
Qed.

Lemma merge_empty_delta_noop_witness :
  merge Sample.T Sample.store Sample.t_ab (Some (emptyDiff Sample.T))
  = Some (Sample.store, Sample.t_ab, false).
Proof.
  apply merge_empty_delta_noop. split_and!; simpl; try done.
  split; [|done]. split; [lia|].
  apply map_Forall_insert_2; [by split_and!|]. apply map_Forall_singleton. by split_and!.
Defined.

(** X3. [Empty(key)] does not add a key: merging a delta map that holds an
    explicit-empty sub-delta under [k] leaves the store, the map reference
    and [changed] as they were, whether the base's map has no [k] or holds a
    well-formed value under it. *)
Theorem Empty_entry_noop vt om k h ch :
  (∀ x, content h om !! k = Some x → wf vt h x) →
  mergeMap (merge vt) (zero vt) om (DiffMap.Empty vt None k) (h, ch)
  = Some (h, ch, om).
Proof.
  intros Hx. unfold mergeMap. simpl.
  assert (merge vt h (default (zero vt) (content h om !! k)) (Some (emptyDiff vt))
          = Some (h, default (zero vt) (content h om !! k), false)) as ->.
  { destruct vt as [fs ss ms]. apply merge_emptyDiff.
    - destruct (content h om !! k) as [x|]; simpl.
      + by destruct (wf_lengths _ _ _ _ _ _ (Hx x eq_refl)) as (? & ? & ?).
      + by rewrite length_fmap.
    - destruct (content h om !! k) as [x|]; simpl.
      + by destruct (wf_lengths _ _ _ _ _ _ (Hx x eq_refl)) as (? & ? & ?).
      + by rewrite length_map.
    - destruct (content h om !! k) as [x|]; simpl.
      + by destruct (wf_lengths _ _ _ _ _ _ (Hx x eq_refl)) as (? & ? & ?).
      + by rewrite length_fmap. }
  done.
Qed.

Lemma Empty_entry_noop_witness :
  mergeMap (merge Sample.R) (zero Sample.R) (Some 3%nat)
           (DiffMap.Empty Sample.R None "z") (Sample.store, false)
  = Some (Sample.store, false, Some 3%nat).
Proof. apply Empty_entry_noop. intros x Hx. by vm_compute in Hx. Defined.

(** X4. The nil marker on a key the base's map holds: merge clones the map
    once, at the end of the store, the clone holds every entry of the base's
    map but that of [k], [o.F] becomes the clone and [changed] is set. *)
Theorem Nil_entry_clones_and_deletes vt om k x h ch :
  content h om !! k = Some x →
  mergeMap (merge vt) (zero vt) om (DiffMap.Nil None k) (h, ch)
  = Some (h ++ [delete k (content h om)], true, Some (length h)).
Proof.
  intros Hk. unfold mergeMap. simpl. rewrite Hk. unfold copyOnWrite. simpl.
  rewrite copyEntries_id.
  rewrite <-(Nat.add_0_r (length h)) at 1. by rewrite alter_app_r.
Qed.

Lemma Nil_entry_clones_and_deletes_witness :
  mergeMap (merge Sample.R) (zero Sample.R) (Some 2%nat)
           (DiffMap.Nil None "b") (Sample.store, false)
  = Some (Sample.store ++ [delete "b" (content Sample.store (Some 2%nat))], true,
          Some (length Sample.store)).
Proof. by apply (Nil_entry_clones_and_deletes _ _ _ (Sample.r 2)). Defined.

(** ** What merge leaves in place *)

Lemma copyOnWrite_field s :
  (length (heap s) ≤ length (heap (copyOnWrite s)))%nat
  ∧ (field (copyOnWrite s) = field s
     ∨ ∃ l, field (copyOnWrite s) = Some l ∧ (length (heap s) ≤ l)%nat).
Proof.
  unfold copyOnWrite. destruct (once s); [by split; [|left]|].
  cbn [alloc heap field]. rewrite length_app. split; [lia|right]. by eexists.
Qed.

Section merge_fields_kept.
Context (mergeV : Heap → Value → option Diff → Merged) (zeroV : Value).
Hypothesis mergeV_total :
  ∀ h o d, ∃ h' o' c, mergeV h o d = Some (h', o', c) ∧ preserved h h'.

Lemma mergeEntry_field s e s' :
  mergeEntry mergeV zeroV s e = Some s' →
  (length (heap s) ≤ length (heap s'))%nat
  ∧ (field s' = field s ∨ ∃ l, field s' = Some l ∧ (length (heap s) ≤ l)%nat).
Proof.
  destruct e as [k [dc|]]; simpl.
  - destruct (mergeV_total (heap s) (default zeroV (content (heap s) (field s) !! k))
                (Some dc)) as (h1 & c2 & merged & -> & Hp%preserved_length).
    simpl. destruct merged; [|intros [= <-]; simpl; by split; [|left]].
    set (sh := {| heap := h1; field := field s; once := once s; changed := changed s |}).
    destruct (copyOnWrite_field sh) as [Hlen Hf]. simpl in Hlen, Hf.
    destruct (mapStore _ _ _ _) as [h2|] eqn:Hst; simpl; [|done]. intros [= <-].
    cbn [heap field]. unfold mapStore in Hst.
    destruct (field (copyOnWrite sh)) as [l|] eqn:Hfl; [|done]. injection Hst as <-.
    unfold storeAt. rewrite length_alter. split; [lia|].
    destruct Hf as [Hf|(l' & [= <-] & Hl')]; [by left|right].
    exists l. split; [done|lia].
  - destruct (content (heap s) (field s) !! k); [|intros [= <-]; by split; [|left]].
    intros [= <-]. cbn [heap field].
    destruct (copyOnWrite_field s) as [Hlen Hf]. split.
    + destruct (field (copyOnWrite s)); simpl; [by rewrite length_alter|done].
    + done.
Qed.

Lemma forRange_field l : ∀ s s',
  forRange (mergeEntry mergeV zeroV) l s = Some s' →
  (length (heap s) ≤ length (heap s'))%nat
  ∧ (field s' = field s ∨ ∃ l, field s' = Some l ∧ (length (heap s) ≤ l)%nat).
Proof.
  induction l as [|e l IH]; intros s s'.
  { intros [= <-]. by split; [|left]. }
  change (forRange ?f (?e :: ?l) ?s) with (f s e ≫= forRange f l).
  destruct (mergeEntry mergeV zeroV s e) as [s1|] eqn:He; [|done].
  cbn [mbind option_bind]. intros Hl.
  apply mergeEntry_field in He as [Hlen1 Hf1]. apply IH in Hl as [Hlen2 Hf2].
  split; [lia|]. destruct Hf2 as [->|(l2 & -> & Hl2)]; [done|right].
  exists l2. split; [done|lia].
Qed.
End merge_fields_kept.

Lemma forEach3_lookup {B C}
    (f : Struct → B → C → Heap * bool → option (Heap * bool * B)) l1 :
  ∀ l2 l3 s s' ds j a b c,
    (∀ a b c s s' d, f a b c s = Some (s', d) → preserved s.1 s'.1) →
    forEach3 f l1 l2 l3 s = Some (s', ds) →
    l1 !! j = Some a → l2 !! j = Some b → l3 !! j = Some c →
    ∃ sj sj' d, f a b c sj = Some (sj', d) ∧ ds !! j = Some d
                ∧ preserved s.1 sj.1 ∧ preserved sj'.1 s'.1.
Proof.
  induction l1 as [|a1 l1 IH]; intros [|b1 l2] [|c1 l3] s s' ds j a b c Hf; try done.
  change (forEach3 f (a1 :: l1) (b1 :: l2) (c1 :: l3) s) with
    ('(s, d) ← f a1 b1 c1 s; '(s, ds) ← forEach3 f l1 l2 l3 s; Some (s, d :: ds)).
  destruct (f a1 b1 c1 s) as [[s1 d1]|] eqn:H1; [|done]. cbn [mbind option_bind].
  destruct (forEach3 f l1 l2 l3 s1) as [[s2 ds2]|] eqn:H2; [|done].
  cbn [mbind option_bind]. intros [= <- <-].
  pose proof (Hf _ _ _ _ _ _ H1) as Hp1.
  assert (preserved s1.1 s2.1) as Hp2.
  { clear -Hf H2. revert l2 l3 s1 s2 ds2 H2.
    induction l1 as [|a l1 IH]; intros [|b l2] [|c l3] s1 s2 ds2;
      try (intros [= <- <-]; apply preserved_refl).
    change (forEach3 f (a :: l1) (b :: l2) (c :: l3) s1) with
      ('(s, d) ← f a b c s1; '(s, ds) ← forEach3 f l1 l2 l3 s; Some (s, d :: ds)).
    destruct (f a b c s1) as [[s3 d3]|] eqn:H1; [|done]. cbn [mbind option_bind].
    destruct (forEach3 f l1 l2 l3 s3) as [[s4 ds4]|] eqn:H2; [|done].
    cbn [mbind option_bind]. intros [= <- <-].
    eapply preserved_trans; [by eapply Hf|by eapply IH]. }
  destruct j as [|j]; simpl.
  - intros [= ->] [= ->] [= ->]. exists s, s1, d1.
    split_and!; [done|done|apply preserved_refl|done].
  - intros Ha Hb Hc.
    destruct (IH l2 l3 s1 s2 ds2 j a b c Hf H2 Ha Hb Hc)
      as (sj & sj' & d & Hfj & Hd & Hpa & Hpb).
    exists sj, sj', d. split_and!; [done..| |done]. by eapply preserved_trans.
Qed.

Lemma mergeMap_preserved vt om dm s s' r :
  mergeMap (merge vt) (zero vt) om dm s = Some (s', r) → preserved s.1 s'.1.
Proof.
  intros Hm. destruct (mergeMap_total (merge vt) (zero vt) (merge_total vt) om dm s)
    as (h2 & c2 & r2 & Hm' & Hp). rewrite Hm in Hm'. by injection Hm' as -> ->.
Qed.

Lemma mergeStruct_preserved st os ds s s' o2 :
  mergeStruct (merge st) os ds s = Some (s', o2) → preserved s.1 s'.1.
Proof.
  intros Hm. destruct (mergeStruct_total (merge st) (merge_total st) os ds s)
    as (h2 & c2 & r2 & Hm' & Hp). rewrite Hm in Hm'. by injection Hm' as -> ->.
Qed.

(** The two loops of merge and the heaps between them. *)
Lemma merge_stages fs ss ms h o d h' o' c :
  merge (MkStruct fs ss ms) h o (Some d) = Some (h', o', c) →
  ∃ h1 ch1,
    preserved h h1
    ∧ forEach3 (λ st os ds s, mergeStruct (merge st) os ds s)
               ss (vstructs o) (dstructs d)
               (h, (mergeFields fs (vfields o) (dfields d) false).2)
      = Some (h1, ch1, vstructs o')
    ∧ forEach3 (λ vt om dm s, mergeMap (merge vt) (zero vt) om dm s)
               ms (vmaps o) (dmaps d) (h1, ch1)
      = Some (h', c, vmaps o').
Proof.
  rewrite merge_unfold.
  destruct (mergeFields fs (vfields o) (dfields d) false) as [fields ch0].
  destruct (forEach3_total (λ _, True)
              (λ st os ds s, mergeStruct (merge st) os ds s)
              ss (vstructs o) (dstructs d) (h, ch0))
    as (h1 & ch1 & structs & H1 & Hp1); [|by apply Forall_true|].
  { intros st os ds s _. apply mergeStruct_total, merge_total. }
  rewrite H1. cbn [mbind option_bind].
  destruct (forEach3 _ ms _ _ _) as [[[h2 ch2] maps]|] eqn:H2; [|done].
  cbn [mbind option_bind]. intros [= <- <- <-]. by exists h1, ch1.
Qed.

(** X5. Keys the delta does not mention are untouched: after merge, the
    [j]-th map of the result holds under a key that has no entry in the
    delta's [j]-th map exactly the value (the same record, map references
    included) that the base's map holds under it, or nothing if the base's
    map has nothing there. *)
Theorem merge_other_keys_untouched t h o d h' o' c j vt r dm k :
  merge t h o (Some d) = Some (h', o', c) →
  Maps t !! j = Some vt → vmaps o !! j = Some r → allocated h r →
  dmaps d !! j = Some dm → k ∉ (entries dm).*1 →
  ∃ r', vmaps o' !! j = Some r' ∧ content h' r' !! k = content h r !! k.
Proof.
  destruct t as [fs ss ms]. intros Hm Hvt Hr Hal Hdm Hk. simpl in Hvt.
  destruct (merge_stages _ _ _ _ _ _ _ _ _ Hm) as (h1 & ch1 & Hp1 & _ & H2).
  eapply forEach3_lookup in H2 as ([hj chj] & [hj' chj'] & r' & Hmj & Hr' & Hpa & Hpb);
    [|by intros; eapply mergeMap_preserved|done..].
  simpl in Hpa, Hpb. exists r'. split; [done|].
  unfold mergeMap in Hmj. cbn [fst snd] in Hmj.
  destruct (forRange _ _ _) as [s'|] eqn:Hl; [|done]. injection Hmj as <- <- <-.
  assert (preserved h hj) as Hph by (by eapply preserved_trans).
  apply (forRange_other_key (merge vt) (zero vt) (merge_total vt) _ _ _ k) in Hl
    as [Hal' Hc]; [| |done].
  2:{ intros l Hfl. simpl in Hfl. apply Hal in Hfl. simpl.
      apply preserved_length in Hph. lia. }
  simpl in Hc.
  assert (content hj r = content h r) as <-.
  { destruct r as [l|]; [|done]. apply preserved_content; [done|]. by apply Hal. }
  rewrite <-Hc. destruct (field s') as [l|] eqn:Hf; [|done].
  rewrite (preserved_content (heap s') h'); [done..|]. by apply Hal'.
Qed.

Lemma merge_other_keys_untouched_witness :
  ∃ r', vmaps (MkValue [] [] [Some 5%nat]) !! 0%nat = Some r'
        ∧ content (Sample.store ++ [delete "b" (content Sample.store (Some 2%nat))]) r'
            !! "a"
          = content Sample.store (Some 2%nat) !! "a".
Proof.
  apply (merge_other_keys_untouched Sample.T Sample.store Sample.t_ab
           (MkDiff [] [] [Some [("b", None)]]) _ _ true 0%nat Sample.R
           (Some 2%nat) (Some [("b", None)]) "a"); try reflexivity.
  - intros l [= <-]. simpl. lia.
  - simpl. by intros ?%list_elem_of_singleton.
Defined.

(** X6. Merge keeps what the delta does not touch: a nested struct field
    whose sub-delta is nil is returned as it is; a map field whose delta map
    has no entries keeps its map (no clone); and every map field of the
    result is either the base's map itself or a map allocated during the
    call. *)
Theorem merge_untouched_fields t h o d h' o' c :
  merge t h o (Some d) = Some (h', o', c) →
  (∀ j st os, StructFields t !! j = Some st → vstructs o !! j = Some os →
              dstructs d !! j = Some None → vstructs o' !! j = Some os)
  ∧ (∀ j vt r dm, Maps t !! j = Some vt → vmaps o !! j = Some r →
                  dmaps d !! j = Some dm → entries dm = [] →
                  vmaps o' !! j = Some r)
  ∧ (∀ j vt r dm, Maps t !! j = Some vt → vmaps o !! j = Some r →
                  dmaps d !! j = Some dm →
                  vmaps o' !! j = Some r
                  ∨ ∃ l, vmaps o' !! j = Some (Some l) ∧ (length h ≤ l)%nat).
Proof.
  destruct t as [fs ss ms]. intros Hm.
  destruct (merge_stages _ _ _ _ _ _ _ _ _ Hm) as (h1 & ch1 & Hp1 & H1 & H2).
  cbn [StructFields Maps]. split_and!.
  - intros j st os Hst Hos Hd.
    eapply forEach3_lookup in H1 as (sj & sj' & o2 & Hmj & Ho2 & _ & _);
      [|by intros; eapply mergeStruct_preserved|done..].
    unfold mergeStruct in Hmj. rewrite merge_nil in Hmj. simpl in Hmj. congruence.
  - intros j vt r dm Hvt Hr Hdm Hnil.
    eapply forEach3_lookup in H2 as (sj & sj' & r' & Hmj & Hr' & _ & _);
      [|by intros; eapply mergeMap_preserved|done..].
    unfold mergeMap in Hmj. rewrite Hnil in Hmj. simpl in Hmj. congruence.
  - intros j vt r dm Hvt Hr Hdm.
    eapply forEach3_lookup in H2 as ([hj chj] & sj' & r' & Hmj & Hr' & Hpa & _);
      [|by intros; eapply mergeMap_preserved|done..].
    simpl in Hpa. unfold mergeMap in Hmj. cbn [fst snd] in Hmj.
    destruct (forRange _ _ _) as [s'|] eqn:Hl; [|done]. injection Hmj as <- <-.
    apply (forRange_field (merge vt) (zero vt) (merge_total vt)) in Hl as [_ Hf].
    simpl in Hf. destruct Hf as [Hf|(l & Hf & Hlen)].
    + left. by rewrite Hr', Hf.
    + right. exists l. rewrite Hr', Hf. split; [done|].
      apply preserved_length in Hp1, Hpa. lia.
Qed.

Lemma merge_untouched_fields_witness :
  (∀ j st os, StructFields Sample.T !! j = Some st →
              vstructs Sample.t_ab !! j = Some os →
              dstructs (MkDiff [] [] [Some [("b", None)]]) !! j = Some None →
              vstructs (MkValue [] [] [Some 5%nat]) !! j = Some os)
  ∧ (∀ j vt r dm, Maps Sample.T !! j = Some vt → vmaps Sample.t_ab !! j = Some r →
                  dmaps (MkDiff [] [] [Some [("b", None)]]) !! j = Some dm →
                  entries dm = [] →
                  vmaps (MkValue [] [] [Some 5%nat]) !! j = Some r)
  ∧ (∀ j vt r dm, Maps Sample.T !! j = Some vt → vmaps Sample.t_ab !! j = Some r →
                  dmaps (MkDiff [] [] [Some [("b", None)]]) !! j = Some dm →
                  vmaps (MkValue [] [] [Some 5%nat]) !! j = Some r
                  ∨ ∃ l, vmaps (MkValue [] [] [Some 5%nat]) !! j = Some (Some l)
                         ∧ (length Sample.store ≤ l)%nat).
Proof.
  apply (merge_untouched_fields Sample.T Sample.store Sample.t_ab
           (MkDiff [] [] [Some [("b", None)]])
           (Sample.store ++ [delete "b" (content Sample.store (Some 2%nat))])
           (MkValue [] [] [Some 5%nat]) true).
  by vm_compute.
Defined.

(** ** Copy on well-formed values *)

Lemma mapless_wfValue t : ∀ (P Q : loc → Prop) h h' v,
  mapless t = true → wfValue P t h v → wfValue Q t h' v.
Proof.
  induction t as [fs ss ms IHss _] using Struct_ind'. intros P Q h h' v.
  simpl mapless. rewrite andb_true_iff. intros [Hms Hss].
  destruct ms as [|? ?]; [|done]. rewrite !wfValue_unfold.
  intros (Hf & Hs & Hm). split_and!; [done| |done].
  apply forallb_Forall in Hss.
  assert (Forall (λ st, ∀ sv, wfValue P st h sv → wfValue Q st h' sv) ss) as Hall.
  { rewrite Forall_forall in *. intros st Hin sv. apply IHss; [done|]. by apply Hss. }
  eapply all2_impl; [exact Hall| |exact Hs]. intros st sv H. apply H.
Qed.

Section copy_loop.
Context (P : loc → Prop) (vt : Struct) (hs : Heap).
Hypothesis HP : ∀ l, P l → (l < length hs)%nat.
Hypothesis IHvt : copySpec vt.

Lemma copyInv_start : copyInv P vt hs [] (hs ++ [∅]).
Proof.
  split_and!.
  - apply preserved_app.
  - rewrite length_app. simpl. lia.
  - intros k _. pose proof (content_alloc hs ∅) as Hc. simpl in Hc.
    simpl. by rewrite Hc.
  - intros k v Hin. by apply elem_of_nil in Hin.
Qed.

Lemma copyInv_step done hc k v :
  copyInv P vt hs done hc → k ∉ done.*1 → wfValue P vt hs v →
  (∀ k0 v0, (k0, v0) ∈ done → wfValue P vt hs v0) →
  copyInv P vt hs (done ++ [(k, v)])
    (let '(h, v') := Copy vt hc v in storeAt (length hs) k v' h).
Proof.
  intros (Hp & Hlen & Hnone & Hdone) Hk Hv Hdonewf.
  pose proof (preserved_length _ _ Hp) as Hlen0.
  assert (∀ l, P l → (l < length hc)%nat) as HPc by (intros l Hl%HP; lia).
  assert (wfValue P vt hc v) as Hvc.
  { eapply wfValue_agree; [|exact Hv]. by apply preserved_agree. }
  destruct (IHvt P hc v HPc Hvc) as (Hp1 & Hw1 & He1 & Hd1).
  destruct (Copy vt hc v) as [h1 v']. simpl in Hp1, Hw1, He1, Hd1.
  pose proof (preserved_length _ _ Hp1) as Hlen1. unfold storeAt.
  set (h2 := alter <[k:=v']> (length hs) h1).
  assert (length h2 = length h1) as Hlen2 by apply length_alter.
  assert (content h2 (Some (length hs)) = <[k:=v']> (content hc (Some (length hs))))
    as Hc2.
  { subst h2. rewrite content_alter; [|lia]. f_equal. by apply preserved_content. }
  assert (∀ i, (i < length h1)%nat → i ≠ length hs → h2 !! i = h1 !! i) as Hother.
  { intros i _ Hi. subst h2. by apply list_lookup_alter_ne. }
  assert (agree (λ i, P i ∨ (length hs < i ∧ i < length hc)%nat) hc h2) as Hag.
  { intros i Hi. rewrite Hother.
    - destruct (lookup_lt_is_Some_2 hc i) as [m Hm].
      { destruct Hi as [Hi%HP|[_ Hi]]; lia. }
      by rewrite Hm, (Hp1 _ _ Hm).
    - destruct Hi as [Hi%HP|[_ Hi]]; lia.
    - destruct Hi as [Hi%HP|[Hi _]]; lia. }
  assert (agree (λ i, P i ∨ fresh hc h1 i) h1 h2) as Hag1.
  { intros i Hi. apply Hother.
    - destruct Hi as [Hi%HP|[_ Hi]]; lia.
    - destruct Hi as [Hi%HP|[Hi _]]; lia. }
  split_and!.
  - subst h2. apply preserved_alter; [|done]. by eapply preserved_trans.
  - lia.
  - intros k' Hk'. rewrite Hc2. rewrite fmap_app in Hk'. simpl in Hk'.
    apply not_elem_of_app in Hk' as [Hk1 Hk2%not_elem_of_cons].
    rewrite lookup_insert_ne; [by apply Hnone|]. by intros ->; destruct Hk2.
  - intros k' v0 [Hin|Hin%list_elem_of_singleton]%elem_of_app.
    + destruct (Hdone k' v0 Hin) as (v0' & Hl0 & Hw0 & He0 & Hd0).
      assert (k' ≠ k) as Hne.
      { intros ->. apply Hk, elem_of_fst. eauto. }
      exists v0'. rewrite Hc2, lookup_insert_ne; [|done]. split_and!; [done| | |].
      * eapply wfValue_impl; [|eapply wfValue_agree; [exact Hag|exact Hw0]].
        intros i [Hi|[? ?]]; [by left|right]. lia.
      * eapply (equal_agree vt P _ hs hs hc h2);
          [by eapply Hdonewf|apply agree_refl|exact Hw0|exact Hag|exact He0].
      * intros Hdc. specialize (Hd0 Hdc).
        eapply wfValue_impl; [|eapply wfValue_agree; [|exact Hd0]].
        -- intros i [? ?]. lia.
        -- intros i Hi. apply Hag. by right.
    + injection Hin as -> ->. exists v'. rewrite Hc2, lookup_insert_eq.
      split_and!; [done| | |].
      * eapply wfValue_impl; [|eapply wfValue_agree; [exact Hag1|exact Hw1]].
        intros i [Hi|[? ?]]; [by left|right]. lia.
      * eapply (equal_agree vt P _ hc hs h1 h2);
          [exact Hvc|by apply agree_sym, preserved_agree|exact Hw1|exact Hag1|exact He1].
      * intros Hdc. specialize (Hd1 Hdc).
        eapply wfValue_impl; [|eapply wfValue_agree; [|exact Hd1]].
        -- intros i [? ?]. lia.
        -- intros i Hi. apply Hag1. by right.
Qed.

Lemma copyInv_loop todo : ∀ done hc,
  copyInv P vt hs done hc → NoDup (done ++ todo).*1 →
  (∀ k v, (k, v) ∈ done ++ todo → wfValue P vt hs v) →
  copyInv P vt hs (done ++ todo)
    (foldl (λ (h : Heap) '(k, v),
              let '(h, v') := Copy vt h v in storeAt (length hs) k v' h) hc todo).
Proof.
  induction todo as [|[k v] todo IH]; intros done hc Hinv Hnd Hwf.
  { by rewrite app_nil_r. }
  simpl foldl. rewrite (assoc_L (++) done [(k, v)] todo : done ++ (k, v) :: todo = _).
  rewrite (assoc_L (++) done [(k, v)] todo : done ++ (k, v) :: todo = _) in Hnd, Hwf.
  apply IH; [|done..]. apply copyInv_step; [done| | |].
  - rewrite !fmap_app in Hnd. apply NoDup_app in Hnd as [Hnd _].
    apply NoDup_app in Hnd as (_ & Hnd & _). intros Hin. apply (Hnd k Hin). by left.
  - apply (Hwf k v). apply elem_of_app. left. apply elem_of_app. right. by left.
  - intros k0 v0 Hin. apply (Hwf k0 v0). apply elem_of_app. left.
    apply elem_of_app. by left.
Qed.

Lemma copyMap_spec om :
  wfRef P vt hs om →
  preserved hs (copyMap (Copy vt) om hs).1
  ∧ (copyMap (Copy vt) om hs).2 = Some (length hs)
  ∧ wfRef (λ l, P l ∨ fresh hs (copyMap (Copy vt) om hs).1 l) vt
          (copyMap (Copy vt) om hs).1 (Some (length hs))
  ∧ equalMap vt hs om (copyMap (Copy vt) om hs).1 (Some (length hs))
  ∧ (deepCopied vt = true →
     wfRef (fresh hs (copyMap (Copy vt) om hs).1) vt
           (copyMap (Copy vt) om hs).1 (Some (length hs))).
Proof.
  intros Hom. unfold copyMap. cbn [alloc fst snd].
  destruct (copyInv_loop (map_to_list (content hs om)) [] (hs ++ [∅]) copyInv_start)
    as (Hp & Hlen & Hnone & Hdone).
  { apply NoDup_fst_map_to_list. }
  { intros k v Hin%elem_of_map_to_list. by eapply wfRef_lookup. }
  simpl app in *.
  set (h' := foldl _ _ _) in *.
  assert (∀ k, match content hs om !! k with
               | Some v => ∃ v', content h' (Some (length hs)) !! k = Some v'
                   ∧ wfValue (λ i, P i ∨ (length hs < i ∧ i < length h')%nat) vt h' v'
                   ∧ equal vt hs v h' v'
                   ∧ (deepCopied vt = true →
                      wfValue (λ i, (length hs < i ∧ i < length h')%nat) vt h' v')
               | None => content h' (Some (length hs)) !! k = None
               end) as Hkeys.
  { intros k. destruct (content hs om !! k) as [v|] eqn:Hk.
    - apply Hdone. by apply elem_of_map_to_list.
    - apply Hnone. rewrite elem_of_fst. intros [x Hx%elem_of_map_to_list]. congruence. }
  split_and!; [done|done| | |].
  - split; [right; split; [done|lia]|]. intros k v' Hv'. specialize (Hkeys k).
    destruct (content hs om !! k); [|congruence].
    destruct Hkeys as (v'' & Hl & Hw & _). rewrite Hl in Hv'. injection Hv' as ->.
    eapply wfValue_impl; [|exact Hw]. intros i [?|[? ?]]; [by left|right].
    split; [lia|done].
  - intros k. specialize (Hkeys k). destruct (content hs om !! k).
    + destruct Hkeys as (v' & -> & _ & He & _). by constructor.
    + rewrite Hkeys. constructor.
  - intros Hdc. split; [split; [done|lia]|]. intros k v' Hv'. specialize (Hkeys k).
    destruct (content hs om !! k); [|congruence].
    destruct Hkeys as (v'' & Hl & _ & _ & Hw). rewrite Hl in Hv'. injection Hv' as ->.
    eapply wfValue_impl; [|exact (Hw Hdc)]. intros i [? ?]. split; [lia|done].
Qed.
End copy_loop.

Lemma all3_diag_wf {A B} (w : A → B → Prop) (f : A → B → B → Prop) l1 l :
  all2 w l1 l → (∀ a b, w a b → f a b b) → all3 f l1 l l.
Proof.
  intros Hw Hf. revert l Hw. induction l1 as [|a l1 IH]; intros [|b l]; simpl; try done.
  intros [? ?]. split; [by apply Hf|by apply IH].
Qed.

Lemma all2_cons {A B} (f : A → B → Prop) a l1 b l2 :
  all2 f (a :: l1) (b :: l2) ↔ f a b ∧ all2 f l1 l2.
Proof. reflexivity. Qed.

Lemma all3_cons {A B C} (f : A → B → C → Prop) a l1 b l2 c l3 :
  all3 f (a :: l1) (b :: l2) (c :: l3) ↔ f a b c ∧ all3 f l1 l2 l3.
Proof. reflexivity. Qed.

Section copy_maps.
Context (P : loc → Prop) (h : Heap).
Hypothesis HP : ∀ l, P l → (l < length h)%nat.

Lemma copyMaps_spec ms : ∀ oms hs,
  Forall copySpec ms → preserved h hs → all2 (λ vt r, wfRef P vt h r) ms oms →
  preserved hs (copyMaps Copy ms oms hs).1
  ∧ all2 (λ vt r, wfRef (λ l, P l ∨ fresh h (copyMaps Copy ms oms hs).1 l) vt
                        (copyMaps Copy ms oms hs).1 r)
         ms (copyMaps Copy ms oms hs).2
  ∧ all3 (λ vt om r, equalMap vt h om (copyMaps Copy ms oms hs).1 r)
         ms oms (copyMaps Copy ms oms hs).2
  ∧ (forallb deepCopied ms = true →
     all2 (λ vt r, wfRef (fresh h (copyMaps Copy ms oms hs).1) vt
                         (copyMaps Copy ms oms hs).1 r)
          ms (copyMaps Copy ms oms hs).2).
Proof.
  induction ms as [|vt ms IH]; intros [|om oms] hs HQ Hp Hw; try done.
  { simpl. split_and!; [apply preserved_refl|done..]. }
  apply Forall_cons in HQ as [IHvt HQ]. simpl in Hw. destruct Hw as [Hom Hw].
  change (copyMaps Copy (vt :: ms) (om :: oms) hs) with
    (let '(h, r) := copyMap (Copy vt) om hs in
     let '(h, rs) := copyMaps Copy ms oms h in (h, r :: rs)).
  pose proof (preserved_length _ _ Hp) as Hlen.
  assert (∀ l, P l → (l < length hs)%nat) as HPs by (intros l Hl%HP; lia).
  assert (agree P h hs) as Hag by (by apply preserved_agree).
  destruct (copyMap_spec P vt hs HPs IHvt om) as (Hp1 & Hr & Hw1 & He1 & Hd1).
  { by eapply wfRef_agree. }
  destruct (copyMap (Copy vt) om hs) as [h1 r]. cbn [fst snd] in *. subst r.
  assert (preserved h h1) as Hph1 by (by eapply preserved_trans).
  destruct (IH oms h1 HQ Hph1 Hw) as (Hp2 & Hw2 & He2 & Hd2).
  destruct (copyMaps Copy ms oms h1) as [h2 rs]. cbn [fst snd] in *.
  assert (wfRef (λ l, P l ∨ fresh h h1 l) vt h1 (Some (length hs))) as Hw1'.
  { eapply wfRef_impl; [|exact Hw1]. intros l [?|[? ?]]; [by left|right].
    split; [lia|done]. }
  split; [|split; [|split]].
  - by eapply preserved_trans.
  - apply all2_cons. split; [|done]. by eapply wfRef_grow.
  - apply all3_cons. split; [|done].
    eapply (equalMap_agree vt P _ hs h h1 h2);
      [by eapply wfRef_agree|by apply agree_sym|exact Hw1'| |done].
    apply preserved_agree; [|done]. intros l. by apply grown_lt.
  - simpl forallb. rewrite andb_true_iff. intros [Hdv Hdms].
    apply all2_cons. split; [|by apply Hd2].
    eapply wfRef_impl; [|eapply wfRef_agree; [|exact (Hd1 Hdv)]].
    + intros l [? ?]. apply preserved_length in Hp2. split; lia.
    + apply preserved_agree; [|done]. by intros l [_ ?].
Qed.
End copy_maps.

Lemma Copy_spec t : copySpec t.
Proof.
  induction t as [fs ss ms _ IHms] using Struct_ind'. intros P h o HP.
  rewrite wfValue_unfold. intros (Hf & Hs & Hm). rewrite Copy_unfold.
  destruct (copyMaps_spec P h HP ms (vmaps o) h IHms (preserved_refl h) Hm)
    as (Hp & Hw & He & Hd).
  destruct (copyMaps Copy ms (vmaps o) h) as [h' maps]. cbn [fst snd] in *.
  assert (agree P h h') as Hag by (by apply preserved_agree).
  split_and!; [done| | |].
  - apply wfValue_unfold. cbn [vfields vstructs vmaps]. split_and!; [done| |done].
    eapply (all2_impl (λ _, True)); [by apply Forall_true| |exact Hs].
    intros st sv _ Hsv. eapply wfValue_impl; [|by eapply wfValue_agree].
    intros l Hl. by left.
  - apply equal_unfold. cbn [vfields vstructs vmaps]. split_and!; [| |done].
    + apply all3_diag. by apply Forall_true.
    + eapply all3_diag_wf; [exact Hs|]. intros st sv Hsv.
      eapply (equal_agree st P P h h h h');
        [done|apply agree_refl|done|done|apply equal_refl].
  - simpl deepCopied. rewrite andb_true_iff. intros [Hss Hms].
    apply wfValue_unfold. cbn [vfields vstructs vmaps]. split_and!; [done| |by apply Hd].
    apply forallb_Forall in Hss.
    eapply all2_impl; [exact Hss| |exact Hs]. intros st sv Hml Hsv. cbv beta in *.
    exact (mapless_wfValue st P _ h h' sv Hml Hsv).
Qed.

(** X7. Copy returns the value it is given: for every well-formed value,
    [Copy] gives a well-formed value that is equal to it (same scalars,
    equal nested structs, maps with the same keys and equal values), and
    leaves every map of the store as it was. *)
Theorem Copy_equal t h o :
  wf t h o →
  equal t h o (Copy t h o).1 (Copy t h o).2
  ∧ wf t (Copy t h o).1 (Copy t h o).2
  ∧ preserved h (Copy t h o).1.
Proof.
  intros Hwf. destruct (Copy_spec t (λ l, (l < length h)%nat) h o) as (Hp & Hw & He & _);
    [done..|].
  split_and!; [done| |done]. eapply wfValue_impl; [|exact Hw].
  intros l [Hl|[_ Hl]]; [|done]. apply preserved_length in Hp. lia.
Qed.

Lemma Copy_equal_witness :
  equal Sample.T Sample.store Sample.t_ab
    (Copy Sample.T Sample.store Sample.t_ab).1 (Copy Sample.T Sample.store Sample.t_ab).2
  ∧ wf Sample.T (Copy Sample.T Sample.store Sample.t_ab).1
       (Copy Sample.T Sample.store Sample.t_ab).2
  ∧ preserved Sample.store (Copy Sample.T Sample.store Sample.t_ab).1.
Proof.
  apply Copy_equal. split_and!; simpl; try done.
  split; [|done]. split; [lia|].
  apply map_Forall_insert_2; [by split_and!|]. apply map_Forall_singleton. by split_and!.
Defined.

(** X8. Copy independence where it holds: for a struct whose nested struct
    fields hold no map (here and in the values of its maps), every map
    reachable from the copy of a well-formed value was allocated by [Copy],
    and no map that was in the store is written; so no write through the
    copy reaches a map of the original. *)
Theorem Copy_independent t h o :
  deepCopied t = true → wf t h o →
  wfValue (fresh h (Copy t h o).1) t (Copy t h o).1 (Copy t h o).2
  ∧ preserved h (Copy t h o).1.
Proof.
  intros Hdc Hwf.
  destruct (Copy_spec t (λ l, (l < length h)%nat) h o) as (Hp & _ & _ & Hd); [done..|].
  split; [by apply Hd|done].
Qed.

Lemma Copy_independent_witness :
  deepCopied Sample.T = true
  ∧ wfValue (fresh Sample.store (Copy Sample.T Sample.store Sample.t_ab).1) Sample.T
      (Copy Sample.T Sample.store Sample.t_ab).1 (Copy Sample.T Sample.store Sample.t_ab).2
  ∧ preserved Sample.store (Copy Sample.T Sample.store Sample.t_ab).1.
Proof.
  split; [done|]. apply Copy_independent; [done|]. split_and!; simpl; try done.
  split; [|done]. split; [lia|].
  apply map_Forall_insert_2; [by split_and!|]. apply map_Forall_singleton. by split_and!.
Defined.

(** X9. What Copy does for every value, well formed or not: it writes no
    map that was in the store, returns the scalars and the nested struct
    fields as they are (maps inside nested structs stay shared), and every
    map that is a field of the copy itself is newly allocated. *)
Theorem Copy_shallow_on_structs t h o :
  preserved h (Copy t h o).1
  ∧ vfields (Copy t h o).2 = vfields o
  ∧ vstructs (Copy t h o).2 = vstructs o
  ∧ Forall (λ r : MapRef, ∃ l, r = Some l ∧ (length h ≤ l)%nat) (vmaps (Copy t h o).2).
Proof.
  destruct (Copy_fresh t h o) as (Hp & Hs & Hm). split_and!; [done| |done..].
  destruct t as [fs ss ms]. rewrite Copy_unfold.
  by destruct (copyMaps Copy ms (vmaps o) h).
Qed.

(** ** The delta made by [diff] is well formed *)

Lemma zip3_length {A B C D} (f : A → B → C → D) l1 : ∀ l2 l3,
  length l2 = length l1 → length l3 = length l1 →
  length (zip3 f l1 l2 l3) = length l1.
Proof.
  induction l1 as [|a l1 IH]; intros [|b l2] [|c l3]; simpl; try done.
  intros [= ?] [= ?]. by rewrite IH.
Qed.

Lemma all2_zip3 {A B C D} (Q : A → Prop) (w1 : A → B → Prop) (w2 : A → C → Prop)
    (g : A → D → Prop) (f : A → B → C → D) l1 : ∀ l2 l3,
  Forall Q l1 → all2 w1 l1 l2 → all2 w2 l1 l3 →
  (∀ a b c, Q a → w1 a b → w2 a c → g a (f a b c)) →
  all2 g l1 (zip3 f l1 l2 l3).
Proof.
  induction l1 as [|a l1 IH]; intros [|b l2] [|c l3] HQ; simpl; try done.
  apply Forall_cons in HQ as [Ha HQ]. intros [? ?] [? ?] Hg.
  split; [by apply Hg|by apply IH].
Qed.

Lemma assign_NoDup k v l : NoDup l.*1 → NoDup (assign k v l).*1.
Proof.
  intros Hnd. rewrite assign_keys. case_decide as Hin; [done|].
  apply NoDup_app. split_and!; [done| |apply NoDup_singleton].
  intros k' Hk' ->%list_elem_of_singleton. done.
Qed.

Section diffMap_wf.
Context (diffV : Value → Value → option Diff) (zeroV : Value).
Context (om nm : gmap Key Value) (Q : option Diff → Prop).
Hypothesis Q_nil : Q None.
Hypothesis Q_diff : ∀ k nc ip,
  nm !! k = Some nc → diffV (default zeroV (om !! k)) nc = Some ip → Q (Some ip).

Lemma diffMap_Forall :
  NoDup (entries (diffMap diffV zeroV om nm)).*1
  ∧ Forall (λ e : Key * option Diff, Q e.2) (entries (diffMap diffV zeroV om nm)).
Proof.
  unfold diffMap. rewrite entries_nilIfEmpty.
  set (Inv := λ i : DiffMap,
         NoDup (entries i).*1 ∧ Forall (λ e : Key * option Diff, Q e.2) (entries i)).
  assert (∀ k v i, Q v → Inv i → Inv (Some (assign k v (entries i)))) as Hassign.
  { intros k v i Hv [Hnd Hall]. split; [by apply assign_NoDup|]. simpl.
    clear Hnd. induction Hall as [|[k1 v1] l H1 Hl IH]; simpl.
    - by repeat constructor.
    - case_decide; constructor; done. }
  assert (Inv (Some [])) as Hstart.
  { split; simpl; [apply NoDup_nil_2|constructor]. }
  match goal with |- NoDup (entries ?x).*1 ∧ _ => change (Inv x) end.
  assert (∀ l i, (∀ k nc, (k, nc) ∈ l → nm !! k = Some nc) → Inv i →
            Inv (foldl (λ (i : DiffMap) '(k, nc),
                          match diffV (default zeroV (om !! k)) nc with
                          | Some ip => Some (assign k (Some ip) (entries i))
                          | None => i
                          end) i l)) as Hadd.
  { induction l as [|[k x] l IH]; intros i Hl Hi; [done|]. simpl. apply IH.
    - intros k' nc Hin. apply Hl. by right.
    - destruct (diffV _ x) as [ip|] eqn:Hd; [|done]. apply Hassign; [|done].
      eapply Q_diff; [|done]. apply Hl. by left. }
  assert (∀ (l : list (Key * Value)) i, Inv i →
            Inv (foldl (λ (i : DiffMap) '(k, _),
                          match nm !! k with
                          | None => Some (assign k None (entries i))
                          | Some _ => i
                          end) i l)) as Hrem.
  { induction l as [|[k x] l IH]; intros i Hi; [done|]. simpl. apply IH.
    destruct (nm !! k); [done|]. by apply Hassign. }
  apply Hrem, Hadd; [|done]. intros k nc Hin. by apply elem_of_map_to_list.
Qed.
End diffMap_wf.

Lemma diff_wfDiff t : ∀ (P1 P2 : loc → Prop) h o n d,
  wfValue P1 t h o → wfValue P2 t h n → diff t h o n = Some d → wfDiff t d.
Proof.
  induction t as [fs ss ms IHss IHms] using Struct_ind'. intros P1 P2 h o n d.
  rewrite !wfValue_unfold. intros (Hfo & Hso & Hmo) (Hfn & Hsn & Hmn).
  rewrite diff_unfold. cbv zeta. destruct (empty _); [done|]. intros [= <-].
  apply wfDiff_unfold. cbn [dfields dstructs dmaps]. split_and!.
  - by apply zip3_length.
  - eapply all2_zip3; [exact IHss|exact Hso|exact Hsn|].
    intros st a b IH Ha Hb. cbv beta in *. unfold wfDiffOpt.
    destruct (diff st h a b) as [d'|] eqn:Hd; [|done].
    exact (IH P1 P2 h a b d' Ha Hb Hd).
  - eapply all2_zip3; [exact IHms|exact Hmo|exact Hmn|].
    intros vt ro rn IH Hro Hrn. cbv beta in *.
    apply (diffMap_Forall (diff vt h) (zero vt) (content h ro) (content h rn)
             (wfDiffOpt vt)); [done|].
    intros k nc ip Hn Hd. simpl. eapply (IH P1 P2 h _ nc); [| |exact Hd].
    + destruct (content h ro !! k) as [oc|] eqn:Ho; simpl.
      * by eapply wfRef_lookup.
      * apply wfValue_zero.
    + by eapply wfRef_lookup.
Qed.

(** ** Round trip *)

Lemma reported_unfold fs ss ms h o n :
  reported (MkStruct fs ss ms) h o n ↔
    all3 (λ st a b, reported st h a b) ss (vstructs o) (vstructs n)
    ∧ all3 (λ vt ro rn, reportedMap vt h ro rn) ms (vmaps o) (vmaps n).
Proof. reflexivity. Qed.

Lemma elem_entry k v l : NoDup l.*1 → (k, v) ∈ l → entry k l = Some v.
Proof.
  induction l as [|[k1 v1] l IH]; simpl; [by intros _ ?%elem_of_nil|].
  intros [Hk1 Hnd]%NoDup_cons [[= <- <-]|Hin]%elem_of_cons.
  - by rewrite decide_True.
  - rewrite decide_False; [by apply IH|]. intros ->. apply Hk1, elem_of_fst. eauto.
Qed.

Lemma entry_absent k l : k ∉ l.*1 → entry k l = None.
Proof.
  induction l as [|[k1 v1] l IH]; simpl; [done|].
  intros [Hne Hk]%not_elem_of_cons. rewrite decide_False; [by apply IH|done].
Qed.

Lemma forEach3_preserved {B C}
    (f : Struct → B → C → Heap * bool → option (Heap * bool * B)) l1 :
  ∀ l2 l3 s s' ds,
    (∀ a b c s s' d, f a b c s = Some (s', d) → preserved s.1 s'.1) →
    forEach3 f l1 l2 l3 s = Some (s', ds) → preserved s.1 s'.1.
Proof.
  induction l1 as [|a l1 IH]; intros [|b l2] [|c l3] s s' ds Hf;
    try (intros [= <- <-]; apply preserved_refl).
  change (forEach3 f (a :: l1) (b :: l2) (c :: l3) s) with
    ('(s, d) ← f a b c s; '(s, ds) ← forEach3 f l1 l2 l3 s; Some (s, d :: ds)).
  destruct (f a b c s) as [[s3 d3]|] eqn:H1; [|done]. cbn [mbind option_bind].
  destruct (forEach3 f l1 l2 l3 s3) as [[s4 ds4]|] eqn:H2; [|done].
  cbn [mbind option_bind]. intros [= <- <-].
  eapply preserved_trans; [by eapply Hf|by eapply IH].
Qed.

Section rt_loop.
Context (P : loc → Prop) (vt : Struct) (h h0 : Heap) (om rn : MapRef) (ch0 : bool).
Hypothesis HP : ∀ l, P l → (l < length h)%nat.
Hypothesis Hp0 : preserved h h0.
Hypothesis Hom : wfRef P vt h om.
Hypothesis Hrn : wfRef P vt h rn.
Hypothesis Hrep : reportedMap vt h om rn.
Hypothesis IHvt : roundTrip vt.

Lemma rt_HP0 : ∀ l, P l → (l < length h0)%nat.
Proof. intros l Hl%HP. apply preserved_length in Hp0. lia. Qed.

Lemma rt_Hom0 : wfRef P vt h0 om.
Proof. eapply wfRef_agree; [|exact Hom]. by apply preserved_agree. Qed.

Lemma rt_content0 : content h0 om = content h om.
Proof. eapply wfRef_content; [exact Hom|]. by apply preserved_agree. Qed.

Lemma loopMatches_transport seen s s' :
  loopFrame P vt h0 om ch0 seen s →
  (∀ k, k ∈ seen →
        content (heap s') (field s') !! k = content (heap s) (field s) !! k) →
  agree (reach P h0 s) (heap s) (heap s') →
  loopMatches vt h (content h rn) seen s →
  loopMatches vt h (content h rn) seen s'.
Proof.
  intros (_ & _ & _ & _ & Hv & _) Hsame Hag Hm k Hk. specialize (Hm k Hk).
  rewrite (Hsame k Hk).
  destruct (content (heap s) (field s) !! k) as [a|] eqn:Ha,
           (content h rn !! k) as [b|] eqn:Hb; inversion Hm; subst; constructor.
  eapply (equal_agree vt (reach P h0 s) P (heap s) (heap s') h h);
    [by apply (Hv k a)|done|by eapply wfRef_lookup|apply agree_refl|done].
Qed.

Lemma mergeEntry_agree seen s e s' :
  loopFrame P vt h0 om ch0 seen s →
  mergeEntry (merge vt) (zero vt) s e = Some s' →
  agree (reach P h0 s) (heap s) (heap s').
Proof.
  intros Hfr. pose proof Hfr as (Hp & Hal & _ & Hf1 & _ & _).
  pose proof (preserved_length _ _ Hp) as Hlen0.
  assert (∀ sh, preserved (heap s) (heap sh) → field sh = field s → once sh = once s →
            ∀ f, agree (reach P h0 s) (heap s)
                   (match field (copyOnWrite sh) with
                    | Some l => alter f l (heap (copyOnWrite sh))
                    | None => heap (copyOnWrite sh)
                    end)) as Hcow.
  { intros sh Hph Hfs Hos f i Hi.
    assert (i < length (heap s))%nat as Hlt.
    { destruct Hi as [Hi%rt_HP0|(_ & Hi & _)]; lia. }
    destruct (lookup_lt_is_Some_2 (heap s) i Hlt) as [m Hm]. rewrite Hm.
    pose proof (Hph _ _ Hm) as Hm1. pose proof (preserved_length _ _ Hph) as Hlen1.
    unfold copyOnWrite. destruct (once sh) eqn:Hon; cbn [alloc heap field].
    - assert (once s = true) as Hons by congruence.
      destruct (Hf1 Hons) as (_ & l & Hfl & Hl0).
      rewrite Hfs, Hfl. rewrite list_lookup_alter_ne; [done|]. intros ->.
      destruct Hi as [Hi%rt_HP0|(_ & _ & Hi)]; [lia|]. by rewrite Hfl in Hi.
    - rewrite list_lookup_alter_ne; [|lia]. by apply lookup_app_l_Some. }
  destruct e as [k [dc|]]; simpl.
  - destruct (merge_total vt (heap s) (default (zero vt) (content (heap s) (field s) !! k))
                (Some dc)) as (h1 & c2 & merged & -> & Hp1).
    simpl. destruct merged.
    + set (sh := {| heap := h1; field := field s; once := once s; changed := changed s |}).
      specialize (Hcow sh Hp1 eq_refl eq_refl (insert k c2)).
      unfold mapStore, storeAt. destruct (field (copyOnWrite sh)); simpl; [|done].
      by intros [= <-].
    + intros [= <-]. simpl. by apply preserved_agree; [intros i; apply (reach_lt P vt h0 om ch0 rt_HP0 seen)|].
  - destruct (content (heap s) (field s) !! k); [|intros [= <-]; apply agree_refl].
    intros [= <-]. cbn [heap].
    specialize (Hcow s (preserved_refl _) eq_refl eq_refl (delete k)).
    unfold mapDelete. by destruct (field (copyOnWrite s)).
Qed.

Lemma store_agree seen s h1 f l :
  loopFrame P vt h0 om ch0 seen s → preserved (heap s) h1 →
  field (copyOnWrite {| heap := h1; field := field s; once := once s;
                        changed := changed s |}) = Some l →
  agree (λ i, reach P h0 s i ∨ fresh (heap s) h1 i) h1
    (alter f l (heap (copyOnWrite {| heap := h1; field := field s; once := once s;
                                     changed := changed s |}))).
Proof.
  intros (Hp & Hal & _ & Hf1 & _ & _) Hp1 Hfl i Hi.
  pose proof (preserved_length _ _ Hp) as Hlen0.
  pose proof (preserved_length _ _ Hp1) as Hlen1.
  assert (i < length h1)%nat as Hlt.
  { destruct Hi as [[Hi%rt_HP0|(_ & Hi & _)]|[_ Hi]]; lia. }
  destruct (lookup_lt_is_Some_2 h1 i Hlt) as [m Hm]. rewrite Hm.
  unfold copyOnWrite in *. destruct (once s) eqn:Hon; cbn [alloc heap field once] in *.
  - destruct (Hf1 eq_refl) as (_ & l' & Hfl' & Hl0).
    assert (l' = l) as -> by congruence.
    rewrite list_lookup_alter_ne; [done|]. intros Heq. subst i.
    specialize (Hal l Hfl).
    destruct Hi as [[Hi%rt_HP0|(_ & _ & Hi)]|[Hi _]]; [lia|by rewrite Hfl in Hi|lia].
  - injection Hfl as <-. rewrite list_lookup_alter_ne; [|lia].
    by apply lookup_app_l_Some.
Qed.

Lemma rt_step seen s k1 dc s' :
  loopExact P vt h0 om ch0 seen s →
  loopMatches vt h (content h rn) seen s → k1 ∉ seen →
  match dc with
  | None => content h rn !! k1 = None
  | Some ip => ∃ nc, content h rn !! k1 = Some nc
                     ∧ diff vt h (default (zero vt) (content h om !! k1)) nc = Some ip
  end →
  mergeEntry (merge vt) (zero vt) s (k1, dc) = Some s' →
  loopExact P vt h0 om ch0 (k1 :: seen) s'
  ∧ loopMatches vt h (content h rn) (k1 :: seen) s'.
Proof.
  intros Hex Hm Hk1 Hchar He.
  assert (∀ x, content h om !! k1 = Some x → wfValue P vt h x) as Homk.
  { intros x Hx. exact (wfRef_lookup P vt h om k1 x Hom Hx). }
  assert (wfValue P vt h (default (zero vt) (content h om !! k1))) as Hwc.
  { destruct (content h om !! k1) as [x|]; simpl; [by apply Homk|apply wfValue_zero]. }
  assert (wfDiffOpt vt dc) as Hwd.
  { destruct dc as [ip|]; [|done]. destruct Hchar as (nc & Hn & Hd). simpl.
    eapply (diff_wfDiff vt P P h _ nc); [exact Hwc| |exact Hd].
    exact (wfRef_lookup P vt h rn k1 nc Hrn Hn). }
  split.
  { by apply (loopExact_step P vt h0 om ch0 rt_HP0 rt_Hom0 (merge_spec vt) seen s k1 dc). }
  destruct Hex as (Hfr & Hno & Hyes).
  pose proof Hfr as (Hp & Hal & Hf0 & Hf1 & Hv & Hl).
  assert (loopMatches vt h (content h rn) seen s') as Hm'.
  { apply (loopMatches_transport seen s s' Hfr); [| |done].
    - intros k Hk.
      apply (mergeEntry_other_key (merge vt) (zero vt) (merge_total vt) s (k1, dc) s' k);
        [done| |done]. simpl. by intros ->.
    - by eapply mergeEntry_agree. }
  intros k [->|Hk]%elem_of_cons; [|by apply Hm'].
  pose proof (Hl k1 Hk1) as Hcur. rewrite rt_content0 in Hcur.
  assert (preserved h (heap s)) as Hph by (by eapply preserved_trans).
  destruct dc as [ip|]; simpl in He.
  - destruct Hchar as (nc & Hn & Hd). rewrite Hn. rewrite Hcur in He.
    set (c := default (zero vt) (content h om !! k1)) in *.
    assert (wfValue P vt h nc) as Hwn by exact (wfRef_lookup P vt h rn k1 nc Hrn Hn).
    destruct (merge_total vt (heap s) c (Some ip)) as (h1 & c2 & merged & Hmrg & Hp1).
    rewrite Hmrg in He. simpl in He.
    assert (equal vt h1 c2 h nc) as Heq.
    { apply (IHvt P h c nc (heap s) h1 c2 merged HP Hwc Hwn); [|done|by rewrite Hd].
      by apply (Hrep k1 nc Hn). }
    destruct (merge_spec vt (reach P h0 s) (heap s) c (Some ip) h1 c2 merged)
      as (Hw2 & Hfalse & _); [| |done|done|].
    { intros i. by apply (reach_lt P vt h0 om ch0 rt_HP0 seen). }
    { eapply wfValue_impl; [|eapply wfValue_agree; [|exact Hwc]].
      - intros i Hi. by left.
      - by apply preserved_agree. }
    destruct merged.
    + set (sh := {| heap := h1; field := field s; once := once s;
                    changed := changed s |}) in *.
      pose proof (loopFrame_heap P vt h0 om ch0 rt_HP0 seen s h1 Hfr Hp1) as Hfrh.
      pose proof (loopFrame_copyOnWrite P vt h0 om ch0 rt_HP0 seen sh Hfrh)
        as (_ & Hal1 & _ & _).
      unfold mapStore in He. destruct (field (copyOnWrite sh)) as [l|] eqn:Hfl; [|done].
      simpl in He. injection He as <-. cbn [heap field]. unfold storeAt.
      rewrite content_alter; [|by apply Hal1]. rewrite lookup_insert_eq. constructor.
      eapply (equal_agree vt _ P h1 _ h h);
        [exact Hw2|by apply (store_agree seen)|exact Hwn|apply agree_refl|exact Heq].
    + destruct (Hfalse eq_refl) as [-> ->]. injection He as <-. cbn [heap field].
      rewrite Hcur. subst c. destruct (content h om !! k1) as [oc|] eqn:Ho; simpl in *.
      * by constructor.
      * exfalso. assert (diff vt h (zero vt) nc = None) as Hnone; [|congruence].
        apply diff_equal.
        eapply (equal_agree vt (λ _, False) P (heap s) h h h);
          [apply wfValue_zero|by intros ? []|exact Hwn|apply agree_refl|exact Heq].
  - rewrite Hchar. rewrite Hcur in He.
    destruct (content h om !! k1) as [x|] eqn:Ho.
    + pose proof (loopFrame_copyOnWrite P vt h0 om ch0 rt_HP0 seen s Hfr)
        as (_ & Hal1 & _ & Hf11 & _ & _).
      destruct (Hf11 (copyOnWrite_once s)) as (_ & l & Hfl & _).
      injection He as <-. cbn [heap field]. rewrite Hfl. simpl mapDelete.
      rewrite content_alter; [|by apply Hal1]. rewrite lookup_delete_eq. constructor.
    + injection He as <-. rewrite Hcur. constructor.
Qed.

Lemma rt_loop l : ∀ seen s s',
  loopExact P vt h0 om ch0 seen s →
  loopMatches vt h (content h rn) seen s →
  NoDup l.*1 → (∀ k, k ∈ l.*1 → k ∉ seen) →
  Forall (λ e : Key * option Diff,
            match e.2 with
            | None => content h rn !! e.1 = None
            | Some ip =>
                ∃ nc, content h rn !! e.1 = Some nc
                      ∧ diff vt h (default (zero vt) (content h om !! e.1)) nc = Some ip
            end) l →
  forRange (mergeEntry (merge vt) (zero vt)) l s = Some s' →
  ∃ seen', (∀ k, k ∈ seen' ↔ k ∈ l.*1 ∨ k ∈ seen)
           ∧ loopExact P vt h0 om ch0 seen' s'
           ∧ loopMatches vt h (content h rn) seen' s'.
Proof.
  induction l as [|[k1 dc] l IH]; intros seen s s' Hex Hm Hnd Hseen Hchar.
  { intros [= <-]. exists seen. split_and!; [|done..]. intros k. split; [by right|].
    by intros [?%elem_of_nil|?]. }
  change (forRange ?f (?e :: ?l) ?s) with (f s e ≫= forRange f l).
  destruct (mergeEntry (merge vt) (zero vt) s (k1, dc)) as [s1|] eqn:He; [|done].
  cbn [mbind option_bind]. simpl in Hnd, Hseen. apply NoDup_cons in Hnd as [Hk1 Hnd].
  apply Forall_cons in Hchar as [Hdc Hchar]. simpl in Hdc.
  apply rt_step with (seen := seen) in He as [Hex1 Hm1]; [|done|done| |done].
  2:{ apply Hseen. by left. }
  intros Hl. apply (IH (k1 :: seen)) in Hl as (seen' & Hs' & Hex' & Hm');
    [|done|done|done| |done].
  2:{ intros k Hk. apply not_elem_of_cons. split; [by intros ->|].
      apply Hseen. by right. }
  exists seen'. split_and!; [|done..]. intros k. rewrite Hs', fmap_cons.
  cbn [fst]. rewrite !elem_of_cons. tauto.
Qed.

Lemma rt_mergeMap h' ch' r' :
  mergeMap (merge vt) (zero vt) om
           (diffMap (diff vt h) (zero vt) (content h om) (content h rn)) (h0, ch0)
  = Some (h', ch', r') →
  equalMap vt h' r' h rn.
Proof.
  unfold mergeMap. cbn [fst snd].
  set (l := entries (diffMap (diff vt h) (zero vt) (content h om) (content h rn))).
  destruct (diffMap_Forall (diff vt h) (zero vt) (content h om) (content h rn)
              (λ _, True) I (λ _ _ _ _ _, I)) as [Hnd _]. fold l in Hnd.
  assert (∀ k, entry k l =
               match content h rn !! k with
               | Some nc => Some <$> diff vt h (default (zero vt) (content h om !! k)) nc
               | None => match content h om !! k with
                         | Some _ => Some None
                         | None => None
                         end
               end) as Hentry by (intros k; apply entry_diffMap).
  destruct (forRange _ _ _) as [s'|] eqn:Hl; [|done]. cbn [mbind option_bind].
  intros [= <- <- <-].
  apply (rt_loop l []) in Hl as (seen & Hseen & (Hfr & _ & _) & Hm).
  - destruct Hfr as (Hp & _ & _ & _ & _ & Hunseen). intros k.
    destruct (decide (k ∈ seen)) as [Hin|Hin]; [by apply Hm|].
    rewrite (Hunseen k Hin), rt_content0.
    assert (k ∉ l.*1) as Hk by (intros ?; apply Hin, Hseen; by left).
    pose proof (Hentry k) as He. rewrite (entry_absent k l Hk) in He.
    destruct (content h rn !! k) as [nc|] eqn:Hn.
    + destruct (diff vt h (default (zero vt) (content h om !! k)) nc) eqn:Hd; [done|].
      destruct (content h om !! k) as [oc|] eqn:Ho; simpl in Hd.
      * constructor.
        apply (IHvt P h oc nc (heap s') (heap s') oc false HP);
          [exact (wfRef_lookup P vt h om k oc Hom Ho)
          |exact (wfRef_lookup P vt h rn k nc Hrn Hn)| |by eapply preserved_trans|].
        -- pose proof (Hrep k nc Hn) as [Hr _]. by rewrite Ho in Hr.
        -- rewrite Hd. apply merge_nil.
      * by destruct (Hrep k nc Hn) as [_ Hr]; destruct (Hr Ho).
    + destruct (content h om !! k); [done|constructor].
  - split_and!; [apply (loopFrame_start P vt h0 om ch0 rt_HP0 rt_Hom0)|done..].
  - intros k Hk. by apply elem_of_nil in Hk.
  - done.
  - intros k _. apply not_elem_of_nil.
  - apply Forall_forall. intros [k dc] Hin. simpl.
    pose proof (Hentry k) as He. rewrite (elem_entry k dc l Hnd Hin) in He.
    destruct (content h rn !! k) as [nc|] eqn:Hn.
    + destruct (diff vt h (default (zero vt) (content h om !! k)) nc) as [ip|] eqn:Hd;
        [|done]. injection He as ->. by exists nc.
    + destruct (content h om !! k); [by injection He as ->|done].
Qed.
End rt_loop.

Lemma mergeFields_diff fs : ∀ os ns ch,
  length os = length fs → length ns = length fs →
  (mergeFields fs os (zip3 (λ _ fo fn, diffField fo fn) fs os ns) ch).1 = ns.
Proof.
  induction fs as [|ty fs IH]; intros [|o os] [|n ns] ch; simpl; try done.
  intros [= Ho] [= Hn]. specialize (IH os ns).
  unfold diffField at 1. destruct (decide (n ≠ o)) as [Hne|Heq]; simpl.
  - rewrite decide_True; [|done].
    destruct (mergeFields fs os _ true) as [os1 ch1] eqn:Hfs. simpl.
    f_equal. specialize (IH true Ho Hn). by rewrite Hfs in IH.
  - destruct (mergeFields fs os _ ch) as [os1 ch1] eqn:Hfs. simpl.
    assert (n = o) as -> by (by destruct (decide (n = o)); [|destruct Heq]).
    f_equal. specialize (IH ch Ho Hn). by rewrite Hfs in IH.
Qed.

Lemma all3_intro {A B C} (f : A → B → C → Prop) l1 : ∀ l2 l3,
  (∀ j a b c, l1 !! j = Some a → l2 !! j = Some b → l3 !! j = Some c → f a b c) →
  all3 f l1 l2 l3.
Proof.
  induction l1 as [|a l1 IH]; intros [|b l2] [|c l3] Hf; simpl; try done.
  split; [by apply (Hf 0%nat)|]. apply IH. intros j. apply (Hf (S j)).
Qed.

Lemma all2_at {A B} (f : A → B → Prop) l1 l2 j a :
  all2 f l1 l2 → l1 !! j = Some a → ∃ b, l2 !! j = Some b ∧ f a b.
Proof. rewrite all2_Forall2. intros H. by eapply Forall2_lookup_l. Qed.

Lemma all2_at' {A B} (f : A → B → Prop) l1 l2 j a b :
  all2 f l1 l2 → l1 !! j = Some a → l2 !! j = Some b → f a b.
Proof. rewrite all2_Forall2. intros H. by eapply Forall2_lookup_lr. Qed.

Lemma diffMap_wfDiffMap vt (P1 P2 : loc → Prop) h ro rn :
  wfRef P1 vt h ro → wfRef P2 vt h rn →
  wfDiffMap vt (diffMap (diff vt h) (zero vt) (content h ro) (content h rn)).
Proof.
  intros Hro Hrn.
  apply (diffMap_Forall (diff vt h) (zero vt) (content h ro) (content h rn)
           (wfDiffOpt vt)); [done|].
  intros k nc ip Hn Hd. simpl. eapply (diff_wfDiff vt P1 P2 h _ nc); [| |exact Hd].
  - destruct (content h ro !! k) as [oc|] eqn:Ho; simpl.
    + by eapply wfRef_lookup.
    + apply wfValue_zero.
  - by eapply wfRef_lookup.
Qed.

Lemma roundTrip_all t : roundTrip t.
Proof.
  induction t as [fs ss ms IHss IHms] using Struct_ind'.
  intros P h o n hs h' o' c HP Hwo Hwn Hrep Hp Hm.
  pose proof Hwo as (Hfo & Hso & Hmo)%wfValue_unfold.
  pose proof Hwn as (Hfn & Hsn & Hmn)%wfValue_unfold.
  apply reported_unfold in Hrep as (Hrs & Hrm).
  pose proof (preserved_length _ _ Hp) as Hlen.
  assert (agree P h hs) as Hag by (by apply preserved_agree).
  destruct (diff (MkStruct fs ss ms) h o n) as [d|] eqn:Hd.
  - (* the delta is there: merge runs over its slots *)
    pose proof (diff_wfDiff _ P P _ _ _ _ Hwo Hwn Hd) as Hwd.
    rewrite diff_unfold in Hd. cbv zeta in Hd. destruct (empty _); [done|].
    injection Hd as <-.
    pose proof (merge_fields _ _ _ _ _ _ _ _ _ Hm) as [Hfields _].
    destruct (merge_stages _ _ _ _ _ _ _ _ _ Hm) as (h1 & ch1 & Hp1 & H1 & H2).
    cbn [dfields dstructs dmaps] in *.
    assert (preserved h1 h') as Hp2.
    { apply forEach3_preserved in H2; [done|]. intros. by eapply mergeMap_preserved. }
    apply equal_unfold. split_and!.
    + rewrite Hfields, mergeFields_diff; [|done..]. apply all3_diag. by apply Forall_true.
    + apply all3_intro. intros j st a b Hst Ha Hb.
      destruct (all2_at _ _ _ j st Hso Hst) as (os & Hos & Hwos).
      pose proof (all2_at' _ _ _ j st b Hsn Hst Hb) as Hwb. cbv beta in Hwos, Hwb.
      pose proof (all3_lookup _ _ _ _ j st os b Hrs Hst Hos Hb) as Hrj.
      pose proof (Forall_lookup_1 _ _ _ _ IHss Hst) as IHst. cbv beta in IHst, Hrj.
      eapply forEach3_lookup in H1
        as ([hj chj] & [hj' chj'] & o2 & Hmj & Ho2 & Hpa & Hpb);
        [|by intros; eapply mergeStruct_preserved|exact Hst|exact Hos|].
      2:{ by rewrite zip3_lookup, Hst, Hos, Hb. }
      cbn [fst snd] in Hpa, Hpb. assert (a = o2) as -> by congruence.
      assert (preserved h hj) as Hphj by (by eapply preserved_trans).
      unfold mergeStruct in Hmj. cbn [fst snd] in Hmj.
      destruct (merge_total st hj os (diff st h os b)) as (hx & ox & merged & Hmx & Hpx).
      rewrite Hmx in Hmj. cbn [mbind option_bind] in Hmj.
      destruct (merge_spec st P hj os (diff st h os b) hx ox merged)
        as (Hwx & Hfalse & _); [| | |done|].
      { intros l Hl%HP. apply preserved_length in Hphj. lia. }
      { eapply wfValue_agree; [|exact Hwos]. by apply preserved_agree. }
      { destruct (diff st h os b) eqn:Hds; [|done]. simpl.
        by eapply (diff_wfDiff st P P h os b). }
      assert (hj' = hx ∧ o2 = ox) as [-> ->].
      { destruct merged; injection Hmj as <- <- <-; [done|].
        by destruct (Hfalse eq_refl) as [_ ->]. }
      pose proof (IHst P h os b hj hx ox merged HP Hwos Hwb Hrj Hphj Hmx) as Heq.
      eapply (equal_agree st _ P hx h' h h);
        [exact Hwx| |exact Hwb|apply agree_refl|exact Heq].
      apply preserved_agree; [|by eapply preserved_trans].
      intros l [Hl%HP|[_ Hl]]; [|done].
      apply preserved_length in Hphj, Hpx. lia.
    + apply all3_intro. intros j vt a rn Hvt Ha Hb.
      destruct (all2_at _ _ _ j vt Hmo Hvt) as (ro & Hro & Hwro).
      pose proof (all2_at' _ _ _ j vt rn Hmn Hvt Hb) as Hwrn. cbv beta in Hwro, Hwrn.
      pose proof (all3_lookup _ _ _ _ j vt ro rn Hrm Hvt Hro Hb) as Hrj.
      pose proof (Forall_lookup_1 _ _ _ _ IHms Hvt) as IHvt. cbv beta in IHvt, Hrj.
      eapply forEach3_lookup in H2
        as ([hj chj] & [hj' chj'] & r2 & Hmj & Hr2 & Hpa & Hpb);
        [|by intros; eapply mergeMap_preserved|exact Hvt|exact Hro|].
      2:{ by rewrite zip3_lookup, Hvt, Hro, Hb. }
      cbn [fst snd] in Hpa, Hpb. assert (a = r2) as -> by congruence.
      assert (preserved h hj) as Hphj.
      { eapply preserved_trans; [exact Hp|]. by eapply preserved_trans. }
      pose proof (rt_mergeMap P vt h hj ro rn chj HP Hphj Hwro Hwrn Hrj IHvt
                    hj' chj' r2 Hmj) as Heq.
      destruct (mergeMap_spec' P h HP vt ro _ hj chj hj' chj' r2 (merge_spec vt) Hphj Hwro
                  (diffMap_wfDiffMap vt P P h ro rn Hwro Hwrn) Hmj) as (Hpj & Hwr2 & _).
      eapply (equalMap_agree vt _ P hj' h' h h);
        [exact Hwr2| |exact Hwrn|apply agree_refl|exact Heq].
      apply preserved_agree; [|done]. intros l. apply grown_lt; [done|].
      by eapply preserved_trans.
  - (* no delta: merge returns the base *)
    rewrite merge_nil in Hm. injection Hm as <- <- <-.
    rewrite diff_unfold in Hd. cbv zeta in Hd.
    destruct (empty _) eqn:He; [|done]. clear Hd.
    rewrite empty_unfold, !andb_true_iff in He. destruct He as [[Hef Hes] Hem].
    apply forallb_zip3 in Hef, Hes, Hem.
    apply equal_unfold. split_and!.
    + eapply (all3_impl (λ _, True)); [by apply Forall_true| |exact Hef].
      intros ty a b _ Hab. apply bool_decide_eq_true in Hab. unfold diffField in Hab.
      destruct (decide (b ≠ a)) as [|Heq]; [done|].
      by destruct (decide (a = b)); [|destruct Heq].
    + apply all3_intro. intros j st a b Hst Ha Hb.
      pose proof (all2_at' _ _ _ j st a Hso Hst Ha) as Hwa.
      pose proof (all2_at' _ _ _ j st b Hsn Hst Hb) as Hwb. cbv beta in Hwa, Hwb.
      pose proof (all3_lookup _ _ _ _ j st a b Hrs Hst Ha Hb) as Hrj.
      pose proof (all3_lookup _ _ _ _ j st a b Hes Hst Ha Hb) as Hej.
      pose proof (Forall_lookup_1 _ _ _ _ IHss Hst) as IHst. cbv beta in IHst, Hrj, Hej.
      apply (IHst P h a b hs hs a false HP Hwa Hwb Hrj Hp).
      destruct (diff st h a b) as [d'|] eqn:Hd'; [|apply merge_nil].
      by rewrite (diff_nonempty _ _ _ _ _ Hd') in Hej.
    + apply all3_intro. intros j vt ro rn Hvt Ha Hb.
      pose proof (all2_at' _ _ _ j vt ro Hmo Hvt Ha) as Hwro.
      pose proof (all2_at' _ _ _ j vt rn Hmn Hvt Hb) as Hwrn. cbv beta in Hwro, Hwrn.
      pose proof (all3_lookup _ _ _ _ j vt ro rn Hrm Hvt Ha Hb) as Hrj.
      pose proof (all3_lookup _ _ _ _ j vt ro rn Hem Hvt Ha Hb) as Hej.
      pose proof (Forall_lookup_1 _ _ _ _ IHms Hvt) as IHvt. cbv beta in IHvt, Hrj, Hej.
      apply (rt_mergeMap P vt h hs ro rn false HP Hp Hwro Hwrn Hrj IHvt hs false ro).
      unfold mergeMap.
      by destruct (entries (diffMap (diff vt h) (zero vt) (content h ro) (content h rn))).
Qed.



(** X11. When [diff] returns nil.  Under the condition of X10, [diff]
    returns nil exactly when [old] and [new] are equal; and whenever they
    are equal it returns nil, with no condition at all. *)
Theorem diff_absent_iff_equal t h o n :
  wf t h o → wf t h n → reported t h o n →
  (diff t h o n = None ↔ equal t h o h n).
Proof.
  intros Hwo Hwn Hrep. split; [|apply diff_equal].
  intros Hd.
  apply (roundTrip_all t (λ l, (l < length h)%nat) h o n h h o false
           (λ l Hl, Hl) Hwo Hwn Hrep (preserved_refl h)).
  rewrite Hd. apply merge_nil.
Qed.

Lemma diff_absent_iff_equal_witness :
  diff Sample.T Sample.store Sample.t_a Sample.t_ab = None
  ↔ equal Sample.T Sample.store Sample.t_a Sample.store Sample.t_ab.
Proof.
  apply diff_absent_iff_equal.
  - split_and!; simpl; try done. split; [|done]. split; [lia|].
    apply map_Forall_singleton. by split_and!.
  - split_and!; simpl; try done. split; [|done]. split; [lia|].
    apply map_Forall_insert_2; [by split_and!|]. apply map_Forall_singleton.
    by split_and!.
  - apply reported_unfold. split; [done|]. split; [|done].
    intros k nc. unfold content. simpl. intros Hk.
    apply lookup_insert_Some in Hk as [[<- <-]|[Hne Hk]].
    + split; [by split_and!|]. intros Hn. by vm_compute in Hn.
    + apply lookup_singleton_Some in Hk as [<- <-]. split; [by split_and!|].
      intros _. by vm_compute.
Defined.
